(** * Step-definition resolution of pytest-bdd-ng ([pytest_bdd/steps.py])

    A shallow embedding of [StepHandler] — its [Definition], [Registry] and
    [Matcher] classes and the registration decorators — together with the
    properties of the resolution algorithm.

    Conventions of the embedding.
    - A Python object whose class keeps identity equality carries its
      identity in a field [oid].
    - A [set] is the list of its members in iteration order, without
      repetition.  Python leaves that order unspecified; [add] is modelled
      as placing a new member last, and what is proved about the contents
      of a set after [add] is stated up to permutation.
    - A [dict] with string keys is a [gmap string _].
    - A function that can raise returns a [result]; a generator is the list
      of the items it yields together with the exception that ends it, if
      one does.
    - [warnings.warn] appends to a list of emitted warnings. *)

From stdpp Require Import base option list strings gmap.

Set Default Proof Using "Type".

(** ** Exceptions and generators *)

Inductive Exn :=
  | AttributeError
  | MatchNotFoundError.

Global Instance Exn_eq_dec : EqDecision Exn.
Proof. solve_decision. Defined.

Inductive result (A : Type) :=
  | Return (a : A)
  | Raise (e : Exn).
Arguments Return {A} a.
Arguments Raise {A} e.

Definition bind {A B} (m : result A) (k : A → result B) : result B :=
  match m with
  | Return a => k a
  | Raise e => Raise e
  end.

Notation "'let*' x := m 'in' k" := (bind m (λ x, k))
  (at level 10, x name, m at level 100, k at level 200,
   format "'let*'  x  :=  m  'in'  '/' k").

(** Items yielded so far, and the exception that stopped the generator. *)
Definition generator (A : Type) : Type := list A * option Exn.

(** [list(g)]: the yielded items, unless the generator raised. *)
Definition list_of {A} (g : generator A) : result (list A) :=
  match g with
  | (ys, None) => Return ys
  | (_, Some e) => Raise e
  end.

(** [with suppress(AttributeError): yield from g]. *)
Definition suppress_AttributeError {A} (g : generator A) : generator A :=
  match g with
  | (ys, Some AttributeError) => (ys, None)
  | _ => g
  end.

(** ** Data model *)

(** Modelled from the spec: [pytest_bdd.const.StepType] is not part of the
    sources at hand; the spec gives it as the closed enumeration of these
    six categories. *)
Inductive StepType :=
  | CONTEXT
  | ACTION
  | OUTCOME
  | CONJUNCTION
  | UNKNOWN
  | UNSPECIFIED.

Global Instance StepType_eq_dec : EqDecision StepType.
Proof. solve_decision. Defined.

(** Values that flow through step arguments. *)
Inductive Value :=
  | VNone
  | VBool (b : bool)
  | VInt (z : Z)
  | VStr (s : string).

Global Instance Value_eq_dec : EqDecision Value.
Proof. solve_decision. Defined.

(** Modelled from the spec: [pytest_bdd.model.Step] is not part of the
    sources at hand; a step has a declared category and its text.  The code
    reads [step.type], [step.text] and [step.name]. *)
Record Step := mkStep {
  type : StepType;
  text : string;
  name : string;
}.

(** Modelled from the spec: [pytest_bdd.model.Feature] and [Scenario] are
    only stored by the Matcher, never inspected. *)
Record Feature := mkFeature { feature_name : string }.
Record Scenario := mkScenario { scenario_name : string }.

(** Modelled from the spec: [pytest_bdd.parsers.StepParser], the external
    pattern matcher with its two capabilities. *)
Record StepParser := mkStepParser {
  is_matching : string → bool;
  parse_arguments : string → option (gmap string Value);
}.

(** The part of pytest's [Config] the matcher reads:
    [config.option.liberal_steps] and [config.getini("liberal_steps")]. *)
Record Config := mkConfig {
  option_liberal_steps : option bool;
  getini_liberal_steps : bool;
}.

(** [params_fixtures_mapping: set[str] | dict[str, str] | Any]; opaque to
    this module. *)
Inductive ParamsFixturesMapping :=
  | PFM_bool (b : bool)
  | PFM_set (names : list string)
  | PFM_dict (mapping : gmap string string).

(** [StepHandler.Definition].  The class is declared with [eq=False], so
    two instances are equal exactly when they are the same object. *)
Record StepDefinition := mkStepDefinition {
  oid : positive;
  func : string;
  type_ : option StepType;
  parser : StepParser;
  converters : gmap string (Value → Value);
  params_fixtures_mapping : ParamsFixturesMapping;
  param_defaults : gmap string Value;
  target_fixtures : list string;
  liberal : option bool;
}.

(** [__eq__] of a [Definition]: object identity. *)
Definition StepDefinition_eqb (a b : StepDefinition) : bool :=
  bool_decide (oid a = oid b).

(** [StepHandler.Registry]: the set of held Definitions and the parent. *)
Unset Elimination Schemes.
Inductive Registry := mkRegistry {
  registry : list StepDefinition;
  parent : option Registry;
}.
Set Elimination Schemes.

(** Induction along the parent chain, nearest Registry first. *)
Fixpoint Registry_ind (P : Registry → Prop)
    (Hroot : ∀ defs, P (mkRegistry defs None))
    (Hchild : ∀ defs p, P p → P (mkRegistry defs (Some p)))
    (r : Registry) {struct r} : P r :=
  match r with
  | mkRegistry defs None => Hroot defs
  | mkRegistry defs (Some p) =>
      Hchild defs p (Registry_ind P Hroot Hchild p)
  end.

(** [PytestBDDStepDefinitionWarning] with its message. *)
Inductive Warning :=
  | AlternativeStepDefinitions (step_definitions : list StepDefinition)
  | BothTargetFixtures.

(** ** The Matcher *)

Module Matcher.

(** The attributes declared [init=False] hold no value before the first
    call; [None] stands for that (and, for [previous_step] and
    [step_registry], also for Python's [None]). *)
Record t := mk {
  config : Config;
  feature : option Feature;
  pickle : option Scenario;
  step : option Step;
  previous_step : option Step;
  step_registry : option Registry;
  step_type_context : option StepType;
}.

(** [Matcher(config)], with the default [step_type_context=None]. *)
Definition new (config : Config) : t :=
  mk config None None None None None None.

(** [self.step.text]; reading it before [self.step] is assigned raises. *)
Definition step_text (self : t) : result string :=
  match step self with
  | Some s => Return (text s)
  | None => Raise AttributeError
  end.

Definition strict_matcher (self : t) (step_definition : StepDefinition)
    : result bool :=
  if bool_decide (type_ step_definition = step_type_context self) then
    let* txt := step_text self in
    Return (is_matching (parser step_definition) txt)
  else Return false.

Definition unspecified_matcher (self : t) (step_definition : StepDefinition)
    : result bool :=
  if bool_decide (step_type_context self = Some UNSPECIFIED)
     || bool_decide (type_ step_definition = Some UNSPECIFIED) then
    let* txt := step_text self in
    Return (is_matching (parser step_definition) txt)
  else Return false.

(** The flag the liberal tier goes by. *)
Definition is_step_definition_liberal (self : t)
    (step_definition : StepDefinition) : bool :=
  match liberal step_definition with
  | None =>
      match option_liberal_steps (config self) with
      | Some b => b
      | None => getini_liberal_steps (config self)
      end
  | Some b => b
  end.

(** [all((...))] builds the whole tuple before testing it, so the four
    components are all evaluated, left to right. *)
Definition liberal_matcher (self : t) (step_definition : StepDefinition)
    : result bool :=
  let is_liberal := is_step_definition_liberal self step_definition in
  let* unspecified := unspecified_matcher self step_definition in
  let differs :=
    negb (bool_decide (type_ step_definition = step_type_context self)) in
  let* txt := step_text self in
  Return (negb unspecified && is_liberal && differs
          && is_matching (parser step_definition) txt).

(** The inner loop [for step_definition in registry: if matcher(...): yield]. *)
Fixpoint scan (matcher : StepDefinition → result bool)
    (defs : list StepDefinition) : generator StepDefinition :=
  match defs with
  | [] => ([], None)
  | step_definition :: rest =>
      match matcher step_definition with
      | Raise e => ([], Some e)
      | Return b =>
          let '(ys, e) := scan matcher rest in
          (if b then step_definition :: ys else ys, e)
      end
  end.

(** The outer loop [for matcher in matchers: ...; if found_matches: break].
    [found_matches] is true afterwards exactly when something was yielded. *)
Fixpoint scan_tiers (matchers : list (StepDefinition → result bool))
    (defs : list StepDefinition) : generator StepDefinition :=
  match matchers with
  | [] => ([], None)
  | matcher :: rest =>
      match scan matcher defs with
      | ([], None) => scan_tiers rest defs
      | g => g
      end
  end.

(** [find_step_definition_matches] on a Registry object.  Such an object
    is always truthy, so [if registry:] only tests for [None]; the
    recursive call on [registry.parent] is the [None] case or this
    function again. *)
Fixpoint find_in (registry0 : Registry)
    (matchers : list (StepDefinition → result bool))
    : generator StepDefinition :=
  match registry0 with
  | mkRegistry defs parent0 =>
      match scan_tiers matchers defs with
      | ([], None) =>
          suppress_AttributeError
            match parent0 with
            | None => ([], None)
            | Some p => find_in p matchers
            end
      | g => g
      end
  end.

Definition find_step_definition_matches (registry0 : option Registry)
    (matchers : list (StepDefinition → result bool))
    : generator StepDefinition :=
  match registry0 with
  | None => ([], None)
  | Some r => find_in r matchers
  end.

(** The five assignments that open [__call__]. *)
Definition assign (self : t) (feature0 : Feature) (pickle0 : Scenario)
    (step0 : Step) (previous_step0 : option Step)
    (step_registry0 : option Registry) : t :=
  mk (config self) (Some feature0) (Some pickle0) (Some step0)
     previous_step0 step_registry0 (step_type_context self).

Definition set_step_type_context (self : t) (context : option StepType)
    : t :=
  mk (config self) (feature self) (pickle self) (step self)
     (previous_step self) (step_registry self) context.

(** The conditional assignment to [self.step_type_context]; [step0] is
    the step just assigned to [self.step]. *)
Definition inherit_context (self : t) (step0 : Step) : t :=
  set_step_type_context self
    (if (bool_decide (type step0 = CONJUNCTION)
         || bool_decide (type step0 = UNKNOWN))
        && bool_decide (step_type_context self ≠ None)
     then step_type_context self
     else Some (type step0)).

(** [if self.step_type_context == StepType.CONJUNCTION: ...]. *)
Definition normalize_context (self : t) : t :=
  if bool_decide (step_type_context self = Some CONJUNCTION)
  then set_step_type_context self (Some UNKNOWN)
  else self.

(** The state in which [__call__] runs the search. *)
Definition enter (self : t) (feature0 : Feature) (pickle0 : Scenario)
    (step0 : Step) (previous_step0 : option Step)
    (step_registry0 : option Registry) : t :=
  normalize_context
    (inherit_context
       (assign self feature0 pickle0 step0 previous_step0 step_registry0)
       step0).

(** The three tiers, bound to the Matcher. *)
Definition tiers (self : t) : list (StepDefinition → result bool) :=
  [strict_matcher self; unspecified_matcher self; liberal_matcher self].

(** [list(self.find_step_definition_matches(self.step_registry, ...))]. *)
Definition candidates (self : t) : result (list StepDefinition) :=
  list_of (find_step_definition_matches (step_registry self) (tiers self)).

(** [__call__]: the Matcher afterwards, the warnings emitted, and the
    Definition returned or the exception raised. *)
Definition call (self : t) (feature0 : Feature) (pickle0 : Scenario)
    (step0 : Step) (previous_step0 : option Step)
    (step_registry0 : option Registry)
    : t * list Warning * result StepDefinition :=
  let self := enter self feature0 pickle0 step0 previous_step0
                step_registry0 in
  match candidates self with
  | Raise e => (self, [], Raise e)
  | Return step_definitions =>
      match step_definitions with
      | [] => (self, [], Raise MatchNotFoundError)
      | first :: others =>
          (self,
           match others with
           | [] => []
           | _ :: _ => [AlternativeStepDefinitions step_definitions]
           end,
           Return first)
      end
  end.

End Matcher.

(** ** [Definition.get_parameters] *)

(** [self.converters.get(arg, lambda _: _)]. *)
Definition converter_for (self : StepDefinition) (arg : string)
    : Value → Value :=
  default (λ v, v) (converters self !! arg).

(** [x or {}]: every falsy [x], that is [None] and the empty dict, gives
    the empty dict. *)
Definition or_empty (x : option (gmap string Value)) : gmap string Value :=
  default ∅ x.

(** [{**self.param_defaults, **{arg: convert(value) ...}}]: the later
    mapping wins, which is the left one of stdpp's union. *)
Definition get_parameters (self : StepDefinition) (step0 : Step)
    : gmap string Value :=
  let parsed_arguments :=
    or_empty (parse_arguments (parser self) (name step0)) in
  map_imap (λ arg value, Some (converter_for self arg value))
           parsed_arguments
  ∪ param_defaults self.

(** ** Registration *)

(** What a name of the caller's module can be bound to: the fixture made
    by [Registry.fixture], which carries its Registry as [__registry__],
    or some other object. *)
Inductive LocalObj :=
  | StepRegistryFixture (registry0 : Registry)
  | OtherObject (repr : string).

(** [set.add] for a set of Definitions. *)
Definition set_add (s : list StepDefinition) (x : StepDefinition)
    : list StepDefinition :=
  if existsb (StepDefinition_eqb x) s then s else s ++ [x].

(** [Registry.setdefault_step_registry_fixture]: the dict afterwards and
    the object returned.  [cls()] is the empty Registry without parent. *)
Definition setdefault_step_registry_fixture
    (caller_locals : gmap string LocalObj)
    : gmap string LocalObj * option LocalObj :=
  let caller_locals :=
    match caller_locals !! "step_registry" with
    | None =>
        <["step_registry" := StepRegistryFixture (mkRegistry [] None)]>
          caller_locals
    | Some _ => caller_locals
    end in
  (caller_locals, caller_locals !! "step_registry").

(** [Registry.register_step_definition]: the Registry behind the fixture
    is updated in place; an object without [__registry__] raises. *)
Definition register_step_definition (step_definition : StepDefinition)
    (caller_locals : gmap string LocalObj)
    : result (gmap string LocalObj) :=
  let '(caller_locals, fixture) :=
    setdefault_step_registry_fixture caller_locals in
  match fixture with
  | Some (StepRegistryFixture r) =>
      Return (<["step_registry" :=
                 StepRegistryFixture
                   (mkRegistry (set_add (registry r) step_definition)
                               (parent r))]> caller_locals)
  | _ => Raise AttributeError
  end.

(** The Definitions held by the Registry of a module's scope. *)
Definition stored (caller_locals : gmap string LocalObj)
    : list StepDefinition :=
  match caller_locals !! "step_registry" with
  | Some (StepRegistryFixture r) => registry r
  | _ => []
  end.

(** [OrderedSet(items)]: insertion order, the first occurrence stays. *)
Definition OrderedSet_add (s : list string) (x : string) : list string :=
  if bool_decide (x ∈ s) then s else s ++ [x].

Definition OrderedSet (items : list string) : list string :=
  foldl OrderedSet_add [] items.

(** The state the decorators act on: the next object identity, the
    caller module's bindings, and the [__pytest_bdd_step_definitions__]
    attribute of each handler. *)
Record World := mkWorld {
  next_oid : positive;
  caller_locals : gmap string LocalObj;
  step_definitions_attr : gmap string (list StepDefinition);
}.

Section Registration.

(** [pytest_bdd.parsers.get_parser] resolves a pattern-like value into
    a parser; both are taken as given. *)
Context {Parserlike : Type} (get_parser : Parserlike → StepParser).

(** The arguments shared by the decorators, without the category. *)
Record Options := mkOptions {
  opt_parserlike : Parserlike;
  opt_converters : option (gmap string (Value → Value));
  opt_target_fixture : option string;
  opt_target_fixtures : option (list string);
  opt_params_fixtures_mapping : ParamsFixturesMapping;
  opt_param_defaults : option (gmap string Value);
  opt_liberal : option bool;
}.

(** The warnings [decorator_builder] emits before it returns. *)
Definition builder_warnings (o : Options) : list Warning :=
  match opt_target_fixture o, opt_target_fixtures o with
  | Some _, Some _ => [BothTargetFixtures]
  | _, _ => []
  end.

(** The list [decorator_builder] rebinds [target_fixtures] to. *)
Definition effective_target_fixtures (o : Options) : list string :=
  OrderedSet
    (match opt_target_fixture o with Some x => [x] | None => [] end
     ++ match opt_target_fixtures o with Some l => l | None => [] end).

(** The Definition built inside [decorator], as object [id]. *)
Definition build_definition (step_type : option StepType) (o : Options)
    (step_func : string) (id : positive) : StepDefinition :=
  mkStepDefinition id step_func step_type
    (get_parser (opt_parserlike o))
    (default ∅ (opt_converters o))
    (opt_params_fixtures_mapping o)
    (default ∅ (opt_param_defaults o))
    (effective_target_fixtures o)
    (opt_liberal o).

(** The inner [decorator]: builds the Definition, adds it to the
    handler's attribute and to the module's Registry, and returns the
    handler. *)
Definition decorator (step_type : option StepType) (o : Options)
    (step_func : string) (w : World) : result (World * string) :=
  let step_definition := build_definition step_type o step_func (next_oid w) in
  let attr :=
    set_add (default [] (step_definitions_attr w !! step_func))
            step_definition in
  let* locals :=
    register_step_definition step_definition (caller_locals w) in
  Return (mkWorld (Pos.succ (next_oid w)) locals
                  (<[step_func := attr]> (step_definitions_attr w)),
          step_func).

(** [StepHandler.decorator_builder]: the warnings emitted and the
    decorator returned. *)
Definition decorator_builder (step_type : option StepType) (o : Options)
    : list Warning * (string → World → result (World * string)) :=
  (builder_warnings o, decorator step_type o).

Definition given (o : Options) := decorator_builder (Some CONTEXT) o.
Definition when (o : Options) := decorator_builder (Some ACTION) o.
Definition then_ (o : Options) := decorator_builder (Some OUTCOME) o.

(** [step]: [StepType.UNSPECIFIED if liberal else StepType.UNKNOWN]. *)
Definition step (o : Options) :=
  decorator_builder
    (Some (match opt_liberal o with
           | Some true => UNSPECIFIED
           | _ => UNKNOWN
           end))
    o.

End Registration.

(** ** Notions used in the statements *)

Global Instance result_eq_dec {A} `{EqDecision A} : EqDecision (result A).
Proof. solve_decision. Defined.

(** The match set of one matcher over the Definitions of one Registry. *)
Definition hits (matcher : StepDefinition → result bool)
    (defs : list StepDefinition) : list StepDefinition :=
  filter (λ d, matcher d = Return true) defs.

(** A matcher that comes back with a truth value on every Definition. *)
Definition total (matcher : StepDefinition → result bool) : Prop :=
  ∀ d, ∃ b, matcher d = Return b.

(** ** Example data *)

(** A parser that matches one text only and extracts nothing; it stands
    in for the external string parser in the examples. *)
Definition exact_parser (pattern : string) : StepParser :=
  mkStepParser (λ txt, bool_decide (txt = pattern)) (λ _, None).

(** A Definition as [given]/[when]/[then] with default options build it. *)
Definition example_definition (id : positive) (handler : string)
    (category : StepType) (pattern : string) (flag : option bool)
    : StepDefinition :=
  mkStepDefinition id handler (Some category) (exact_parser pattern)
    ∅ (PFM_bool true) ∅ [] flag.

Definition example_config : Config := mkConfig None false.
Definition example_feature : Feature := mkFeature "feature".
Definition example_scenario : Scenario := mkScenario "scenario".

(** A module scope over a wider one.  The nearest Registry binds "foo"
    for Given and, liberally, for When; the parent binds "foo" and "bar"
    for Given. *)
Definition given_foo := example_definition 1 "given_foo" CONTEXT "foo" None.
Definition when_foo_liberal :=
  example_definition 2 "when_foo" ACTION "foo" (Some true).
Definition parent_given_foo :=
  example_definition 3 "parent_given_foo" CONTEXT "foo" None.
Definition parent_given_bar :=
  example_definition 4 "parent_given_bar" CONTEXT "bar" None.

Definition example_parent : Registry :=
  mkRegistry [parent_given_foo; parent_given_bar] None.
Definition example_registry : Registry :=
  mkRegistry [given_foo; when_foo_liberal] (Some example_parent).

Definition example_enter (category : StepType) (txt : string) : Matcher.t :=
  Matcher.enter (Matcher.new example_config) example_feature
    example_scenario (mkStep category txt txt) None (Some example_registry).


(** The states a Matcher instance can be in after one or more calls. *)
Inductive invoked (self0 : Matcher.t) : Matcher.t → Prop :=
  | invoked_once f p s prev reg :
      invoked self0 (Matcher.call self0 f p s prev reg).1.1
  | invoked_again self f p s prev reg :
      invoked self0 self →
      invoked self0 (Matcher.call self f p s prev reg).1.1.

(** The Definitions of each Registry of a chain, nearest first. *)
Fixpoint chain_in (r : Registry) : list (list StepDefinition) :=
  match r with
  | mkRegistry defs p =>
      defs :: match p with
              | None => []
              | Some q => chain_in q
              end
  end.

Definition chain (registry0 : option Registry) : list (list StepDefinition) :=
  match registry0 with
  | None => []
  | Some r => chain_in r
  end.

(** Two Definitions for the same step in one scope. *)
Definition given_foo_again :=
  example_definition 5 "given_foo_again" CONTEXT "foo" None.
Definition ambiguous_registry : Registry :=
  mkRegistry [given_foo; given_foo_again] None.

(** Deduplication as the spec words it: the concatenation with only the
    first occurrence of each name kept, in order. *)
Fixpoint keep_first_occurrences (l : list string) : list string :=
  match l with
  | [] => []
  | x :: rest => x :: filter (λ y, y ≠ x) (keep_first_occurrences rest)
  end.

(** A module in which nothing has been registered yet. *)
Definition empty_world : World := mkWorld 1 ∅ ∅.

(** Options as a decorator called with the pattern alone has them. *)
Definition default_options (pattern : string) : @Options string :=
  mkOptions pattern None None None (PFM_bool true) None None.

(** The scope of a module can take a registration: its [step_registry],
    if bound, is a Registry fixture. *)
Definition registrable (locals : gmap string LocalObj) : Prop :=
  match locals !! "step_registry" with
  | Some (OtherObject _) => False
  | _ => True
  end.

(** Two Definitions agree on every attribute of the class. *)
Definition same_attributes (a b : StepDefinition) : Prop :=
  func a = func b
  ∧ type_ a = type_ b
  ∧ parser a = parser b
  ∧ converters a = converters b
  ∧ params_fixtures_mapping a = params_fixtures_mapping b
  ∧ param_defaults a = param_defaults b
  ∧ target_fixtures a = target_fixtures b
  ∧ liberal a = liberal b.

(** A second Definition object with the attributes of [given_foo], as a
    second decoration of the same handler with the same parser makes it. *)
Definition given_foo_copy :=
  example_definition 6 "given_foo" CONTEXT "foo" None.

(** What [step("foo")] and [step("foo", liberal=True)] build for the
    handler [any_foo] in a module without registrations. *)
Definition step_foo := example_definition 1 "any_foo" UNKNOWN "foo" None.
Definition step_foo_liberal :=
  example_definition 1 "any_foo" UNSPECIFIED "foo" (Some true).

(** ** Further operations of the Registry *)

(** The fixture made by [Registry.fixture], run with the value of the
    enclosing [step_registry] fixture: it makes that value the parent
    and returns the Registry. *)
Definition fixture_call (self : Registry) (step_registry0 : option Registry)
    : Registry :=
  mkRegistry (registry self) step_registry0.

(** The Registry behind the [step_registry] fixture of a module. *)
Definition module_registry (caller_locals : gmap string LocalObj)
    : option Registry :=
  match caller_locals !! "step_registry" with
  | Some (StepRegistryFixture r) => Some r
  | _ => None
  end.

(** The inner loop of [register_steps], over the Definitions in the
    [__pytest_bdd_step_definitions__] of one handler. *)
Fixpoint register_each (step_definitions : list StepDefinition)
    (caller_locals : gmap string LocalObj)
    : result (gmap string LocalObj) :=
  match step_definitions with
  | [] => Return caller_locals
  | step_definition :: rest =>
      let* caller_locals :=
        register_step_definition step_definition caller_locals in
      register_each rest caller_locals
  end.

(** [Registry.register_steps].  [attrs] holds the
    [__pytest_bdd_step_definitions__] attribute of each handler that has
    one; reading it on a handler that has none raises. *)
Fixpoint register_steps (attrs : gmap string (list StepDefinition))
    (step_funcs : list string) (caller_locals : gmap string LocalObj)
    : result (gmap string LocalObj) :=
  match step_funcs with
  | [] => Return caller_locals
  | step_func :: rest =>
      match attrs !! step_func with
      | None => Raise AttributeError
      | Some step_definitions =>
          let* caller_locals := register_each step_definitions caller_locals in
          register_steps attrs rest caller_locals
      end
  end.

(** An entry of the [steps] argument of [register_steps_from_locals]: a
    name, or a handler object. *)
Inductive StepsEntry :=
  | ByName (binding : string)
  | ByObject (handler : string).

Global Instance StepsEntry_eq_dec : EqDecision StepsEntry.
Proof. solve_decision. Defined.

(** [hasattr(obj, "__pytest_bdd_step_definitions__")]: a handler is the
    object [OtherObject f] with [f] its reference, and it has the
    attribute when a decorator has set it; the Registry fixture has
    none.  The handler is returned when it has the attribute. *)
Definition decorated_handler (attrs : gmap string (list StepDefinition))
    (obj : LocalObj) : option string :=
  match obj with
  | OtherObject f => if bool_decide (is_Some (attrs !! f)) then Some f else None
  | StepRegistryFixture _ => None
  end.

(** [steps is None or any((name in steps, obj in steps))], for a
    decorated handler [f] bound to [binding]. *)
Definition selected (steps : option (list StepsEntry)) (binding f : string)
    : bool :=
  match steps with
  | None => true
  | Some entries =>
      bool_decide (ByName binding ∈ entries)
      || bool_decide (ByObject f ∈ entries)
  end.

(** The generator [registrable_steps] of [register_steps_from_locals],
    run to its end (the call unpacks it before anything is registered).
    The bindings are visited in the order of [map_to_list]. *)
Definition registrable_steps (attrs : gmap string (list StepDefinition))
    (caller_locals : gmap string LocalObj) (steps : option (list StepsEntry))
    : list string :=
  omap (λ item : string * LocalObj,
          match decorated_handler attrs item.2 with
          | Some f => if selected steps item.1 f then Some f else None
          | None => None
          end)
       (map_to_list caller_locals).

(** [Registry.register_steps_from_locals], with the caller's bindings
    passed in. *)
Definition register_steps_from_locals
    (attrs : gmap string (list StepDefinition))
    (caller_locals : gmap string LocalObj) (steps : option (list StepsEntry))
    : result (gmap string LocalObj) :=
  register_steps attrs (registrable_steps attrs caller_locals steps)
    caller_locals.

(** ** Sequences of calls on one Matcher *)

(** The arguments of one call. *)
Record Invocation := mkInvocation {
  inv_feature : Feature;
  inv_pickle : Scenario;
  inv_step : Step;
  inv_previous_step : option Step;
  inv_step_registry : option Registry;
}.

(** The Matcher after a call. *)
Definition invoke (self : Matcher.t) (i : Invocation) : Matcher.t :=
  (Matcher.call self (inv_feature i) (inv_pickle i) (inv_step i)
     (inv_previous_step i) (inv_step_registry i)).1.1.

(** The Matcher after the calls of a scenario, one per step, in order. *)
Definition run (self : Matcher.t) (invocations : list Invocation)
    : Matcher.t :=
  foldl invoke self invocations.

(** ** Further notions used in the statements *)

(** The category of the last step that is neither a CONJUNCTION nor an
    UNKNOWN one. *)
Fixpoint last_explicit (categories : list StepType) : option StepType :=
  match categories with
  | [] => None
  | c :: rest =>
      match last_explicit rest with
      | Some c' => Some c'
      | None =>
          match c with
          | CONJUNCTION | UNKNOWN => None
          | _ => Some c
          end
      end
  end.

(** The context a run of CONJUNCTION and UNKNOWN steps settles on. *)
Definition settle (context : option StepType) : StepType :=
  match context with
  | Some CONJUNCTION | None => UNKNOWN
  | Some c => c
  end.

(** Two chains that differ only in the iteration order of their sets. *)
Inductive chain_perm : option Registry → option Registry → Prop :=
  | chain_perm_none : chain_perm None None
  | chain_perm_some defs defs' p p' :
      defs ≡ₚ defs' → chain_perm p p' →
      chain_perm (Some (mkRegistry defs p)) (Some (mkRegistry defs' p')).

(** A module as decorations leave it: its scope can take registrations,
    and every Definition it knows was built before the next one. *)
Definition World_wf (w : World) : Prop :=
  registrable (caller_locals w)
  ∧ (∀ d, d ∈ stored (caller_locals w) → (oid d < next_oid w)%positive)
  ∧ (∀ f ds d, step_definitions_attr w !! f = Some ds → d ∈ ds →
               (oid d < next_oid w)%positive).

(** Decorators stacked on one handler, innermost first: each is called
    with what the one before returned. *)
Fixpoint decorate {Parserlike : Type} (get_parser : Parserlike → StepParser)
    (decorations : list (option StepType * @Options Parserlike))
    (step_func : string) (w : World) : result (World * string) :=
  match decorations with
  | [] => Return (w, step_func)
  | (step_type, o) :: rest =>
      let* decorated :=
        (decorator_builder get_parser step_type o).2 step_func w in
      decorate get_parser rest decorated.2 decorated.1
  end.

(** A Definition is held, as the same object, in a set. *)
Definition held (s : list StepDefinition) (d : StepDefinition) : Prop :=
  ∃ x, x ∈ s ∧ oid x = oid d.

(** The Definitions in the attributes of some handlers. *)
Definition definitions_of (attrs : gmap string (list StepDefinition))
    (step_funcs : list string) (d : StepDefinition) : Prop :=
  ∃ f ds, f ∈ step_funcs ∧ attrs !! f = Some ds ∧ d ∈ ds.

(** The Definitions of the decorated handlers bound in a module that the
    [steps] argument selects. *)
Definition selected_definitions (attrs : gmap string (list StepDefinition))
    (caller_locals : gmap string LocalObj) (steps : option (list StepsEntry))
    (d : StepDefinition) : Prop :=
  ∃ binding f ds,
    caller_locals !! binding = Some (OtherObject f)
    ∧ attrs !! f = Some ds
    ∧ selected steps binding f = true
    ∧ d ∈ ds.

(** A module that binds two decorated handlers and an undecorated
    object, and the attributes of the handlers. *)
Definition example_attrs : gmap string (list StepDefinition) :=
  {[ "given_foo" := [given_foo]; "when_foo" := [when_foo_liberal] ]}.
Definition example_locals : gmap string LocalObj :=
  {[ "given_foo" := OtherObject "given_foo";
     "when_foo" := OtherObject "when_foo";
     "helper" := OtherObject "helper" ]}.
(** * Properties *)

(** ** The generator *)

Lemma hits_cons matcher d defs :
  hits matcher (d :: defs) =
  if decide (matcher d = Return true) then d :: hits matcher defs
  else hits matcher defs.
Proof. reflexivity. Qed.

Lemma hits_subset matcher defs d : d ∈ hits matcher defs → d ∈ defs.
Proof. unfold hits. rewrite list_elem_of_filter. tauto. Qed.

Lemma scan_total matcher defs :
  total matcher → Matcher.scan matcher defs = (hits matcher defs, None).
Proof.
  intros Htot. induction defs as [|d defs IH]; [reflexivity|].
  cbn [Matcher.scan]. rewrite hits_cons, IH.
  destruct (Htot d) as [[] ->]; [rewrite decide_True by done|
                                 rewrite decide_False by done]; reflexivity.
Qed.

(** A tier with a match ends the search over the tiers, whatever the
    remaining matchers would do. *)
Lemma scan_tiers_hit matcher rest defs :
  total matcher → hits matcher defs ≠ [] →
  Matcher.scan_tiers (matcher :: rest) defs = (hits matcher defs, None).
Proof.
  intros Htot Hne. cbn [Matcher.scan_tiers]. rewrite scan_total by done.
  destruct (hits matcher defs); [done | reflexivity].
Qed.

Lemma scan_tiers_miss matcher rest defs :
  total matcher → hits matcher defs = [] →
  Matcher.scan_tiers (matcher :: rest) defs = Matcher.scan_tiers rest defs.
Proof.
  intros Htot Hnil. cbn [Matcher.scan_tiers]. rewrite scan_total by done.
  rewrite Hnil. reflexivity.
Qed.

Lemma scan_tiers_no_raise matchers defs :
  Forall total matchers → (Matcher.scan_tiers matchers defs).2 = None.
Proof.
  induction 1 as [|m ms Hm _ IH]; [reflexivity|].
  destruct (decide (hits m defs = [])) as [Hnil|Hne].
  - rewrite scan_tiers_miss by done. exact IH.
  - rewrite scan_tiers_hit by done. reflexivity.
Qed.

Lemma scan_tiers_subset matchers defs d :
  Forall total matchers → d ∈ (Matcher.scan_tiers matchers defs).1 → d ∈ defs.
Proof.
  induction 1 as [|m ms Hm _ IH].
  - by intros ?%elem_of_nil.
  - destruct (decide (hits m defs = [])) as [Hnil|Hne].
    + rewrite scan_tiers_miss by done. exact IH.
    + rewrite scan_tiers_hit by done. apply hits_subset.
Qed.

Lemma find_unfold defs parent0 matchers :
  Matcher.find_step_definition_matches (Some (mkRegistry defs parent0)) matchers =
  match Matcher.scan_tiers matchers defs with
  | ([], None) =>
      suppress_AttributeError
        (Matcher.find_step_definition_matches parent0 matchers)
  | g => g
  end.
Proof. destruct parent0; reflexivity. Qed.

Lemma find_in_no_raise r matchers :
  Forall total matchers → (Matcher.find_in r matchers).2 = None.
Proof.
  intros Htot. induction r as [defs|defs p IH] using Registry_ind;
    cbn [Matcher.find_in];
    pose proof (scan_tiers_no_raise matchers defs Htot) as Hs;
    destruct (Matcher.scan_tiers matchers defs) as [[|y ys] e];
    cbn in Hs; subst e; try reflexivity.
  destruct (Matcher.find_in p matchers) as [zs e]. cbn in IH. subst e.
  reflexivity.
Qed.

Lemma find_no_raise registry0 matchers :
  Forall total matchers →
  (Matcher.find_step_definition_matches registry0 matchers).2 = None.
Proof.
  destruct registry0; [apply find_in_no_raise | reflexivity].
Qed.

(** When the tiers find nothing in a Registry, the search is the search
    from its parent. *)
Lemma find_escalate defs parent0 matchers :
  Forall total matchers →
  Matcher.scan_tiers matchers defs = ([], None) →
  Matcher.find_step_definition_matches (Some (mkRegistry defs parent0)) matchers =
  Matcher.find_step_definition_matches parent0 matchers.
Proof.
  intros Htot Hs. rewrite find_unfold, Hs.
  pose proof (find_no_raise parent0 matchers Htot) as Hp.
  destruct (Matcher.find_step_definition_matches parent0 matchers) as [zs e].
  cbn in Hp. subst e. reflexivity.
Qed.

(** When the tiers find something in a Registry, that is the outcome. *)
Lemma find_stop defs parent0 matchers ys :
  ys ≠ [] → Matcher.scan_tiers matchers defs = (ys, None) →
  Matcher.find_step_definition_matches (Some (mkRegistry defs parent0)) matchers =
  (ys, None).
Proof.
  intros Hne Hs. rewrite find_unfold, Hs. destruct ys; [done | reflexivity].
Qed.

(** ** The three matchers once [self.step] is assigned *)

Lemma strict_matcher_bound self s d :
  Matcher.step self = Some s →
  Matcher.strict_matcher self d =
  Return (bool_decide (type_ d = Matcher.step_type_context self)
          && is_matching (parser d) (text s)).
Proof.
  intros Hs. unfold Matcher.strict_matcher, Matcher.step_text. rewrite Hs.
  destruct (bool_decide _); reflexivity.
Qed.

Lemma unspecified_matcher_bound self s d :
  Matcher.step self = Some s →
  Matcher.unspecified_matcher self d =
  Return ((bool_decide (Matcher.step_type_context self = Some UNSPECIFIED)
           || bool_decide (type_ d = Some UNSPECIFIED))
          && is_matching (parser d) (text s)).
Proof.
  intros Hs. unfold Matcher.unspecified_matcher, Matcher.step_text. rewrite Hs.
  destruct (_ || _); reflexivity.
Qed.

Lemma liberal_matcher_bound self s d :
  Matcher.step self = Some s →
  Matcher.liberal_matcher self d =
  Return (negb ((bool_decide (Matcher.step_type_context self = Some UNSPECIFIED)
                 || bool_decide (type_ d = Some UNSPECIFIED))
                && is_matching (parser d) (text s))
          && Matcher.is_step_definition_liberal self d
          && negb (bool_decide (type_ d = Matcher.step_type_context self))
          && is_matching (parser d) (text s)).
Proof.
  intros Hs. unfold Matcher.liberal_matcher.
  rewrite (unspecified_matcher_bound self s d Hs).
  unfold Matcher.step_text. rewrite Hs. reflexivity.
Qed.

Lemma tiers_total self s :
  Matcher.step self = Some s → Forall total (Matcher.tiers self).
Proof.
  intros Hs. unfold Matcher.tiers. repeat constructor; intros d.
  - rewrite (strict_matcher_bound _ _ _ Hs). eauto.
  - rewrite (unspecified_matcher_bound _ _ _ Hs). eauto.
  - rewrite (liberal_matcher_bound _ _ _ Hs). eauto.
Qed.

Lemma enter_step self0 f p s prev reg :
  Matcher.step (Matcher.enter self0 f p s prev reg) = Some s.
Proof.
  unfold Matcher.enter, Matcher.normalize_context.
  destruct (bool_decide _); reflexivity.
Qed.

Lemma enter_step_registry self0 f p s prev reg :
  Matcher.step_registry (Matcher.enter self0 f p s prev reg) = reg.
Proof.
  unfold Matcher.enter, Matcher.normalize_context.
  destruct (bool_decide _); reflexivity.
Qed.

Lemma enter_tiers_total self0 f p s prev reg :
  Forall total (Matcher.tiers (Matcher.enter self0 f p s prev reg)).
Proof. exact (tiers_total _ s (enter_step self0 f p s prev reg)). Qed.

Lemma candidates_enter self0 f p s prev reg :
  Matcher.candidates (Matcher.enter self0 f p s prev reg) =
  list_of (Matcher.find_step_definition_matches reg
             (Matcher.tiers (Matcher.enter self0 f p s prev reg))).
Proof. unfold Matcher.candidates. by rewrite enter_step_registry. Qed.

(** Inside a call the search never raises. *)
Lemma candidates_return self0 f p s prev reg :
  Matcher.candidates (Matcher.enter self0 f p s prev reg) =
  Return (Matcher.find_step_definition_matches reg
            (Matcher.tiers (Matcher.enter self0 f p s prev reg))).1.
Proof.
  rewrite candidates_enter.
  pose proof (find_no_raise reg _ (enter_tiers_total self0 f p s prev reg)) as H.
  destruct (Matcher.find_step_definition_matches _ _) as [ys e].
  cbn in H. subst e. reflexivity.
Qed.

(** ** C1: the tiers of the nearest Registry before its parent *)

(** C1.  In every resolution the three tiers are tried in order on the
    nearest Registry: the first tier with a match gives, with all its
    matches there, the candidate set; the later tiers and the parents
    are not consulted (the outcome is the same whatever the later
    matchers are, even ones that would raise, and whatever the parent
    is), so a Definition held only by a parent is never selected.  Only
    when the three tiers are empty does the search move to the parent,
    where it is run again with the same matchers. *)
Theorem C1_tiers_before_parent
    (self0 : Matcher.t) (feature0 : Feature) (pickle0 : Scenario)
    (step0 : Step) (previous_step0 : option Step)
    (defs : list StepDefinition) (parent0 : option Registry) :
  let self := Matcher.enter self0 feature0 pickle0 step0 previous_step0
                (Some (mkRegistry defs parent0)) in
  let strict := hits (Matcher.strict_matcher self) defs in
  let unspecified := hits (Matcher.unspecified_matcher self) defs in
  let lib := hits (Matcher.liberal_matcher self) defs in
  (strict ≠ [] →
     Matcher.candidates self = Return strict
     ∧ ∀ m2 m3 p,
         Matcher.find_step_definition_matches (Some (mkRegistry defs p))
           [Matcher.strict_matcher self; m2; m3] = (strict, None))
  ∧ (strict = [] → unspecified ≠ [] →
     Matcher.candidates self = Return unspecified
     ∧ ∀ m3 p,
         Matcher.find_step_definition_matches (Some (mkRegistry defs p))
           [Matcher.strict_matcher self; Matcher.unspecified_matcher self; m3]
         = (unspecified, None))
  ∧ (strict = [] → unspecified = [] → lib ≠ [] →
     Matcher.candidates self = Return lib
     ∧ ∀ p,
         Matcher.find_step_definition_matches (Some (mkRegistry defs p))
           (Matcher.tiers self) = (lib, None))
  ∧ (strict = [] → unspecified = [] → lib = [] →
     Matcher.candidates self =
     list_of (Matcher.find_step_definition_matches parent0 (Matcher.tiers self)))
  ∧ (¬ (strict = [] ∧ unspecified = [] ∧ lib = []) →
     ∀ ds d, Matcher.candidates self = Return ds → d ∈ ds → d ∈ defs).
Proof.
  intros self strict unspecified lib.
  pose proof (enter_tiers_total self0 feature0 pickle0 step0 previous_step0
                (Some (mkRegistry defs parent0))) as Htot.
  fold self in Htot. unfold Matcher.tiers in Htot.
  apply Forall_cons in Htot as [H1 Htot].
  apply Forall_cons in Htot as [H2 Htot].
  apply Forall_cons in Htot as [H3 _].
  assert (Hcand : ∀ ys,
    Matcher.find_step_definition_matches (Some (mkRegistry defs parent0))
      (Matcher.tiers self) = (ys, None) →
    Matcher.candidates self = Return ys).
  { intros ys Hys. unfold self. rewrite candidates_enter. fold self.
    rewrite Hys. reflexivity. }
  assert (Hstrict : strict ≠ [] → ∀ m2 m3 p,
    Matcher.find_step_definition_matches (Some (mkRegistry defs p))
      [Matcher.strict_matcher self; m2; m3] = (strict, None)).
  { intros Hne m2 m3 p. apply find_stop; [done|]. by apply scan_tiers_hit. }
  assert (Hunspec : strict = [] → unspecified ≠ [] → ∀ m3 p,
    Matcher.find_step_definition_matches (Some (mkRegistry defs p))
      [Matcher.strict_matcher self; Matcher.unspecified_matcher self; m3]
    = (unspecified, None)).
  { intros Hnil Hne m3 p. apply find_stop; [done|].
    rewrite scan_tiers_miss by done. by apply scan_tiers_hit. }
  assert (Hlib : strict = [] → unspecified = [] → lib ≠ [] → ∀ p,
    Matcher.find_step_definition_matches (Some (mkRegistry defs p))
      (Matcher.tiers self) = (lib, None)).
  { intros Hn1 Hn2 Hne p. apply find_stop; [done|]. unfold Matcher.tiers.
    rewrite !scan_tiers_miss by done. by apply scan_tiers_hit. }
  split; [|split; [|split; [|split]]].
  - intros Hne. split; [|by apply Hstrict]. apply Hcand, Hstrict, Hne.
  - intros Hnil Hne. split; [|by apply Hunspec]. by apply Hcand, Hunspec.
  - intros Hn1 Hn2 Hne. split; [|by apply Hlib]. by apply Hcand, Hlib.
  - intros Hn1 Hn2 Hn3. unfold self at 1. rewrite candidates_enter. fold self.
    f_equal. apply find_escalate.
    + unfold Matcher.tiers. by repeat constructor.
    + unfold Matcher.tiers. rewrite !scan_tiers_miss by done. reflexivity.
  - intros Hsome ds d Hds Hd.
    destruct (decide (strict = [])) as [Hn1|Hne1].
    + destruct (decide (unspecified = [])) as [Hn2|Hne2].
      * destruct (decide (lib = [])) as [Hn3|Hne3]; [tauto|].
        rewrite (Hcand _ (Hlib Hn1 Hn2 Hne3 parent0)) in Hds.
        injection Hds as <-. by apply hits_subset in Hd.
      * rewrite (Hcand _ (Hunspec Hn1 Hne2 _ parent0)) in Hds.
        injection Hds as <-. by apply hits_subset in Hd.
    + rewrite (Hcand _ (Hstrict Hne1 _ _ parent0)) in Hds.
      injection Hds as <-. by apply hits_subset in Hd.
Qed.

(** "Given foo" stops at tier 1 of the nearest Registry although the
    parent has a strict match too; "Then foo" reaches tier 3 there;
    "Given bar" finds nothing there and is resolved by the parent. *)
Lemma C1_tiers_before_parent_witness :
  Matcher.candidates (example_enter CONTEXT "foo") = Return [given_foo]
  ∧ Matcher.candidates (example_enter OUTCOME "foo") = Return [when_foo_liberal]
  ∧ Matcher.candidates (example_enter CONTEXT "bar") = Return [parent_given_bar]
  ∧ ∀ ds d, Matcher.candidates (example_enter CONTEXT "foo") = Return ds →
            d ∈ ds → d ∈ registry example_registry.
Proof.
  split; [|split; [|split]].
  - refine (proj1 (proj1 (C1_tiers_before_parent (Matcher.new example_config)
      example_feature example_scenario (mkStep CONTEXT "foo" "foo") None
      (registry example_registry) (parent example_registry)) _)).
    vm_compute. discriminate.
  - refine (proj1 (proj1 (proj2 (proj2 (C1_tiers_before_parent
      (Matcher.new example_config) example_feature example_scenario
      (mkStep OUTCOME "foo" "foo") None
      (registry example_registry) (parent example_registry)))) _ _ _));
      vm_compute; [reflexivity | reflexivity | discriminate].
  - refine (eq_trans (proj1 (proj2 (proj2 (proj2 (C1_tiers_before_parent
      (Matcher.new example_config) example_feature example_scenario
      (mkStep CONTEXT "bar" "bar") None
      (registry example_registry) (parent example_registry))))) _ _ _) _);
      vm_compute; reflexivity.
  - refine (proj2 (proj2 (proj2 (proj2 (C1_tiers_before_parent
      (Matcher.new example_config) example_feature example_scenario
      (mkStep CONTEXT "foo" "foo") None
      (registry example_registry) (parent example_registry))))) _).
    vm_compute. intros [H _]. discriminate H.
Defined.

(** ** C2, C9, C10: the step-type context *)

Lemma call_state self0 f p s prev reg :
  (Matcher.call self0 f p s prev reg).1.1 = Matcher.enter self0 f p s prev reg.
Proof.
  unfold Matcher.call. destruct (Matcher.candidates _) as [[|d [|d' ds]]|e];
    reflexivity.
Qed.

Lemma normalize_context_spec self :
  Matcher.step_type_context (Matcher.normalize_context self) =
  if bool_decide (Matcher.step_type_context self = Some CONJUNCTION)
  then Some UNKNOWN else Matcher.step_type_context self.
Proof.
  unfold Matcher.normalize_context. destruct (bool_decide _); reflexivity.
Qed.

(** The context after a call, from the context before and the category
    of the step. *)
Lemma call_context self0 f p s prev reg :
  Matcher.step_type_context (Matcher.call self0 f p s prev reg).1.1 =
  match Matcher.step_type_context self0, type s with
  | Some c, (CONJUNCTION | UNKNOWN) =>
      Some (if bool_decide (c = CONJUNCTION) then UNKNOWN else c)
  | _, CONJUNCTION => Some UNKNOWN
  | _, category => Some category
  end.
Proof.
  rewrite call_state. unfold Matcher.enter. rewrite normalize_context_spec.
  cbn. destruct (Matcher.step_type_context self0) as [[]|], (type s);
    reflexivity.
Qed.

(** C2.  A call keeps the context when the step is a CONJUNCTION or
    UNKNOWN one and a context is set, takes the category of the step
    otherwise, and then turns CONJUNCTION into UNKNOWN; the search runs in
    the state so obtained, which is also the state left behind.  Hence
    in "Given A, And B, Then C, And D" on a fresh Matcher, B is resolved
    in context CONTEXT and D in context OUTCOME. *)
Theorem C2_context_propagation
    (self0 : Matcher.t) (feature0 : Feature) (pickle0 : Scenario)
    (step0 : Step) (previous_step0 : option Step)
    (step_registry0 : option Registry) :
  let before := Matcher.step_type_context self0 in
  let inherited :=
    Matcher.step_type_context
      (Matcher.inherit_context
         (Matcher.assign self0 feature0 pickle0 step0 previous_step0
            step_registry0) step0) in
  let after :=
    Matcher.step_type_context
      (Matcher.call self0 feature0 pickle0 step0 previous_step0
         step_registry0).1.1 in
  let continuation := type step0 = CONJUNCTION ∨ type step0 = UNKNOWN in
  (continuation → before ≠ None → inherited = before)
  ∧ (¬ (continuation ∧ before ≠ None) → inherited = Some (type step0))
  ∧ (inherited = Some CONJUNCTION → after = Some UNKNOWN)
  ∧ (inherited ≠ Some CONJUNCTION → after = inherited)
  ∧ (Matcher.call self0 feature0 pickle0 step0 previous_step0
       step_registry0).1.1
    = Matcher.enter self0 feature0 pickle0 step0 previous_step0 step_registry0
  ∧ ∀ config a b c d ra rb rc rd,
      let step_a := mkStep CONTEXT a a in
      let step_b := mkStep CONJUNCTION b b in
      let step_c := mkStep OUTCOME c c in
      let step_d := mkStep CONJUNCTION d d in
      let m1 := (Matcher.call (Matcher.new config) feature0 pickle0
                   step_a None ra).1.1 in
      let m2 := (Matcher.call m1 feature0 pickle0 step_b (Some step_a) rb).1.1 in
      let m3 := (Matcher.call m2 feature0 pickle0 step_c (Some step_b) rc).1.1 in
      let m4 := (Matcher.call m3 feature0 pickle0 step_d (Some step_c) rd).1.1 in
      Matcher.step_type_context m2 = Some CONTEXT
      ∧ Matcher.step_type_context m4 = Some OUTCOME.
Proof.
  intros before inherited after continuation.
  assert (Hafter : after =
    if bool_decide (inherited = Some CONJUNCTION) then Some UNKNOWN
    else inherited).
  { unfold after. rewrite call_state. unfold Matcher.enter.
    by rewrite normalize_context_spec. }
  assert (Hinh : inherited =
    if (bool_decide (type step0 = CONJUNCTION)
        || bool_decide (type step0 = UNKNOWN))
       && bool_decide (before ≠ None)
    then before else Some (type step0)) by reflexivity.
  split; [|split; [|split; [|split; [|split]]]].
  - intros Hc Hset. rewrite Hinh. rewrite (bool_decide_eq_true_2 _ Hset).
    destruct Hc as [-> | ->]; reflexivity.
  - intros Hnot. rewrite Hinh.
    destruct (_ && _) eqn:E; [|reflexivity]. exfalso. apply Hnot.
    apply andb_true_iff in E as [E1 E2]. apply orb_true_iff in E1.
    rewrite !bool_decide_eq_true in E1. by apply bool_decide_eq_true in E2.
  - intros Hi. rewrite Hafter. by rewrite bool_decide_eq_true_2.
  - intros Hi. rewrite Hafter. by rewrite bool_decide_eq_false_2.
  - apply call_state.
  - intros config a b c d ra rb rc rd step_a step_b step_c step_d m1 m2 m3 m4.
    assert (H1 : Matcher.step_type_context m1 = Some CONTEXT).
    { unfold m1. rewrite call_context. reflexivity. }
    assert (H2 : Matcher.step_type_context m2 = Some CONTEXT).
    { unfold m2. rewrite call_context, H1. reflexivity. }
    assert (H3 : Matcher.step_type_context m3 = Some OUTCOME).
    { unfold m3. rewrite call_context, H2. reflexivity. }
    split; [exact H2|]. unfold m4. rewrite call_context, H3. reflexivity.
Qed.

(** After "Given foo" an "And foo" keeps CONTEXT, and a Matcher whose
    first step is "And foo" ends up in UNKNOWN. *)
Lemma C2_context_propagation_witness :
  let m1 := (Matcher.call (Matcher.new example_config) example_feature
               example_scenario (mkStep CONTEXT "foo" "foo") None
               (Some example_registry)).1.1 in
  Matcher.step_type_context
    (Matcher.call m1 example_feature example_scenario
       (mkStep CONJUNCTION "foo" "foo") None (Some example_registry)).1.1
  = Some CONTEXT
  ∧ Matcher.step_type_context
      (Matcher.call (Matcher.new example_config) example_feature
         example_scenario (mkStep CONJUNCTION "foo" "foo") None
         (Some example_registry)).1.1
    = Some UNKNOWN.
Proof.
  intros m1. split.
  - pose proof (C2_context_propagation m1 example_feature example_scenario
      (mkStep CONJUNCTION "foo" "foo") None (Some example_registry))
      as (Hkeep & _ & _ & Hsame & _).
    cbv zeta in Hkeep, Hsame.
    assert (Hset : Matcher.step_type_context m1 ≠ None)
      by (vm_compute; discriminate).
    specialize (Hkeep (or_introl eq_refl) Hset).
    rewrite Hkeep in Hsame.
    rewrite Hsame; [vm_compute; reflexivity | vm_compute; discriminate].
  - pose proof (C2_context_propagation (Matcher.new example_config)
      example_feature example_scenario
      (mkStep CONJUNCTION "foo" "foo") None (Some example_registry))
      as (_ & Hset & Hnorm & _).
    cbv zeta in Hset, Hnorm. apply Hnorm. apply Hset.
    vm_compute. intros [_ H]. by apply H.
Defined.

(** C9.  After any number of calls on a Matcher, whatever they returned
    or raised, its context is not CONJUNCTION and is set; so a context,
    once set, is never unset by a later call. *)
Theorem C9_context_invariant (self0 self : Matcher.t) :
  invoked self0 self →
  Matcher.step_type_context self ≠ Some CONJUNCTION
  ∧ Matcher.step_type_context self ≠ None.
Proof.
  assert (Hone : ∀ m f p s prev reg,
    Matcher.step_type_context (Matcher.call m f p s prev reg).1.1
      ≠ Some CONJUNCTION
    ∧ Matcher.step_type_context (Matcher.call m f p s prev reg).1.1 ≠ None).
  { intros m f p s prev reg. rewrite call_context.
    destruct (Matcher.step_type_context m) as [[]|], (type s);
      split; discriminate. }
  induction 1; apply Hone.
Qed.

(** A call that raises the not-found error and a later one that returns. *)
Lemma C9_context_invariant_witness :
  let m1 := (Matcher.call (Matcher.new example_config) example_feature
               example_scenario (mkStep CONJUNCTION "baz" "baz") None
               (Some example_registry)).1.1 in
  let m2 := (Matcher.call m1 example_feature example_scenario
               (mkStep CONTEXT "foo" "foo") None
               (Some example_registry)).1.1 in
  Matcher.step_type_context m2 ≠ Some CONJUNCTION
  ∧ Matcher.step_type_context m2 ≠ None.
Proof.
  intros m1 m2.
  apply (C9_context_invariant (Matcher.new example_config) m2).
  apply invoked_again, invoked_once.
Defined.

(** C10.  A call that raises the not-found error leaves the Registry
    chain as it was handed in (the search only reads it; the Matcher
    keeps the reference) and emits no warning, yet the Matcher is in the
    state the context rules give, not in the state before the call: there
    are failing calls that change the context. *)
Theorem C10_failure_keeps_registries_updates_context :
  (∀ self0 f p s prev reg,
     (Matcher.call self0 f p s prev reg).2 = Raise MatchNotFoundError →
     let after := (Matcher.call self0 f p s prev reg).1.1 in
     Matcher.step_registry after = reg
     ∧ (Matcher.call self0 f p s prev reg).1.2 = []
     ∧ after = Matcher.enter self0 f p s prev reg
     ∧ Matcher.step_type_context after =
       match Matcher.step_type_context self0, type s with
       | Some c, (CONJUNCTION | UNKNOWN) =>
           Some (if bool_decide (c = CONJUNCTION) then UNKNOWN else c)
       | _, CONJUNCTION => Some UNKNOWN
       | _, category => Some category
       end)
  ∧ ∃ self0 f p s prev reg,
      (Matcher.call self0 f p s prev reg).2 = Raise MatchNotFoundError
      ∧ Matcher.step_type_context (Matcher.call self0 f p s prev reg).1.1
        ≠ Matcher.step_type_context self0.
Proof.
  split.
  - intros self0 f p s prev reg Hfail after. unfold after.
    split; [|split; [|split]].
    + by rewrite call_state, enter_step_registry.
    + revert Hfail. unfold Matcher.call.
      destruct (Matcher.candidates _) as [[|d [|d' ds]]|e];
        cbn; done.
    + apply call_state.
    + apply call_context.
  - exists (Matcher.new example_config), example_feature, example_scenario,
      (mkStep OUTCOME "baz" "baz"), None, (Some example_registry).
    split; [vm_compute; reflexivity | vm_compute; discriminate].
Qed.

(** "Then baz" on a fresh Matcher: nothing matches, and the context is
    OUTCOME afterwards. *)
Lemma C10_failure_keeps_registries_updates_context_witness :
  let result0 := Matcher.call (Matcher.new example_config) example_feature
                   example_scenario (mkStep OUTCOME "baz" "baz") None
                   (Some example_registry) in
  result0.2 = Raise MatchNotFoundError
  ∧ Matcher.step_registry result0.1.1 = Some example_registry
  ∧ Matcher.step_type_context result0.1.1 = Some OUTCOME.
Proof.
  intros result0.
  assert (Hfail : result0.2 = Raise MatchNotFoundError)
    by (vm_compute; reflexivity).
  destruct (proj1 C10_failure_keeps_registries_updates_context
              (Matcher.new example_config) example_feature example_scenario
              (mkStep OUTCOME "baz" "baz") None (Some example_registry) Hfail)
    as (Hreg & _ & _ & Hctx).
  split; [exact Hfail | split; [exact Hreg | exact Hctx]].
Defined.

(** ** C6: the outcome of a call *)

Lemma suppress_fst {A} (g : generator A) : (suppress_AttributeError g).1 = g.1.
Proof. destruct g as [ys [[]|]]; reflexivity. Qed.

Lemma scan_tiers_nil_iff matchers defs :
  Forall total matchers →
  (Matcher.scan_tiers matchers defs).1 = [] ↔
  ∀ m, m ∈ matchers → hits m defs = [].
Proof.
  induction 1 as [|m ms Hm _ IH].
  - split; [by intros _ m ?%elem_of_nil | done].
  - destruct (decide (hits m defs = [])) as [Hnil|Hne].
    + rewrite scan_tiers_miss, IH by done. split.
      * intros Hms m' [->|?]%elem_of_cons; auto.
      * intros Hall m' Hin. apply Hall. by right.
    + rewrite scan_tiers_hit by done. split; [done|].
      intros Hall. apply Hall. by left.
Qed.

Lemma find_in_nil_iff r matchers :
  Forall total matchers →
  (Matcher.find_in r matchers).1 = [] ↔
  ∀ defs, defs ∈ chain_in r → ∀ m, m ∈ matchers → hits m defs = [].
Proof.
  intros Htot.
  induction r as [defs|defs p IH] using Registry_ind;
    cbn [Matcher.find_in chain_in];
    pose proof (scan_tiers_no_raise matchers defs Htot) as Hraise;
    pose proof (scan_tiers_nil_iff matchers defs Htot) as Hnil;
    destruct (Matcher.scan_tiers matchers defs) as [[|y ys] e];
    cbn in Hraise, Hnil; subst e.
  - split; [|done]. intros _ defs' ->%list_elem_of_singleton. by apply Hnil.
  - split; [done|]. intros Hall. apply Hnil, Hall. by left.
  - rewrite suppress_fst, IH. split.
    + intros Hp defs' [->|?]%elem_of_cons; [by apply Hnil | by apply Hp].
    + intros Hall defs' Hin. apply Hall. by right.
  - split; [done|]. intros Hall. apply Hnil, Hall. by left.
Qed.

Lemma find_nil_iff registry0 matchers :
  Forall total matchers →
  (Matcher.find_step_definition_matches registry0 matchers).1 = [] ↔
  ∀ defs, defs ∈ chain registry0 → ∀ m, m ∈ matchers → hits m defs = [].
Proof.
  destruct registry0 as [r|]; [apply find_in_nil_iff|].
  intros _. split; [by intros _ defs ?%elem_of_nil | done].
Qed.

(** C6.  In every call the search comes back with a candidate list.  It
    is empty exactly when no tier matches in any Registry of the chain,
    and then the call raises [MatchNotFoundError]; a single candidate is
    returned without warning; with several, one warning naming them all
    is emitted and the first is returned. *)
Theorem C6_resolution_outcome
    (self0 : Matcher.t) (feature0 : Feature) (pickle0 : Scenario)
    (step0 : Step) (previous_step0 : option Step)
    (step_registry0 : option Registry) :
  let self := Matcher.enter self0 feature0 pickle0 step0 previous_step0
                step_registry0 in
  let outcome := Matcher.call self0 feature0 pickle0 step0 previous_step0
                   step_registry0 in
  ∃ ds,
    Matcher.candidates self = Return ds
    ∧ (ds = [] ↔
       ∀ defs, defs ∈ chain step_registry0 →
       ∀ m, m ∈ Matcher.tiers self → hits m defs = [])
    ∧ (ds = [] → outcome = (self, [], Raise MatchNotFoundError))
    ∧ (∀ d, ds = [d] → outcome = (self, [], Return d))
    ∧ (∀ d d' rest, ds = d :: d' :: rest →
       outcome = (self, [AlternativeStepDefinitions ds], Return d)).
Proof.
  intros self outcome.
  exists (Matcher.find_step_definition_matches step_registry0
            (Matcher.tiers self)).1.
  pose proof (candidates_return self0 feature0 pickle0 step0 previous_step0
                step_registry0) as Hc.
  fold self in Hc. split; [exact Hc|]. split.
  { apply find_nil_iff. apply enter_tiers_total. }
  unfold outcome, Matcher.call. fold self. rewrite Hc.
  split; [|split].
  - intros ->. reflexivity.
  - intros d ->. reflexivity.
  - intros d d' rest ->. reflexivity.
Qed.

(** "Then baz" matches nothing, "Given foo" one Definition, and in the
    scope with two Definitions for it "Given foo" is ambiguous. *)
Lemma C6_resolution_outcome_witness :
  let fresh := Matcher.new example_config in
  Matcher.call fresh example_feature example_scenario
    (mkStep OUTCOME "baz" "baz") None (Some example_registry)
  = (Matcher.enter fresh example_feature example_scenario
       (mkStep OUTCOME "baz" "baz") None (Some example_registry),
     [], Raise MatchNotFoundError)
  ∧ Matcher.call fresh example_feature example_scenario
      (mkStep CONTEXT "foo" "foo") None (Some example_registry)
    = (Matcher.enter fresh example_feature example_scenario
         (mkStep CONTEXT "foo" "foo") None (Some example_registry),
       [], Return given_foo)
  ∧ Matcher.call fresh example_feature example_scenario
      (mkStep CONTEXT "foo" "foo") None (Some ambiguous_registry)
    = (Matcher.enter fresh example_feature example_scenario
         (mkStep CONTEXT "foo" "foo") None (Some ambiguous_registry),
       [AlternativeStepDefinitions [given_foo; given_foo_again]],
       Return given_foo).
Proof.
  intros fresh. split; [|split].
  - destruct (C6_resolution_outcome fresh example_feature example_scenario
      (mkStep OUTCOME "baz" "baz") None (Some example_registry))
      as (ds & Hc & _ & Hnone & _).
    apply Hnone. vm_compute in Hc. by injection Hc.
  - destruct (C6_resolution_outcome fresh example_feature example_scenario
      (mkStep CONTEXT "foo" "foo") None (Some example_registry))
      as (ds & Hc & _ & _ & Hone & _).
    apply Hone. vm_compute in Hc. by injection Hc.
  - destruct (C6_resolution_outcome fresh example_feature example_scenario
      (mkStep CONTEXT "foo" "foo") None (Some ambiguous_registry))
      as (ds & Hc & _ & _ & _ & Hmany).
    assert (Hds : ds = [given_foo; given_foo_again])
      by (vm_compute in Hc; by injection Hc).
    rewrite (Hmany given_foo given_foo_again [] Hds), Hds. reflexivity.
Defined.

(** ** C5: the liberal tier *)

Lemma enter_context self0 f p s prev reg :
  Matcher.step_type_context (Matcher.enter self0 f p s prev reg) =
  match Matcher.step_type_context self0, type s with
  | Some c, (CONJUNCTION | UNKNOWN) =>
      Some (if bool_decide (c = CONJUNCTION) then UNKNOWN else c)
  | _, CONJUNCTION => Some UNKNOWN
  | _, category => Some category
  end.
Proof. rewrite <- call_state. apply call_context. Qed.

Lemma hits_singleton matcher d :
  hits matcher [d] = if decide (matcher d = Return true) then [d] else [].
Proof. reflexivity. Qed.

(** C5.  With [self.step] assigned, the liberal matcher accepts a
    Definition exactly when the unspecified matcher does not, the
    effective liberal flag is true, the category of the Definition is
    not the context, and the pattern matches the text.  The effective
    flag is the flag of the Definition when set, else the command-line
    option when set, else the ini option.  So when the only Definition is
    an ACTION one marked liberal whose pattern matches, a CONTEXT step is
    resolved to it by tier 3, tiers 1 and 2 being empty. *)
Theorem C5_liberal_tier :
  (∀ self s d,
     Matcher.step self = Some s →
     Matcher.liberal_matcher self d = Return true ↔
     Matcher.unspecified_matcher self d ≠ Return true
     ∧ Matcher.is_step_definition_liberal self d = true
     ∧ type_ d ≠ Matcher.step_type_context self
     ∧ is_matching (parser d) (text s) = true)
  ∧ (∀ self d,
       (∀ b, liberal d = Some b →
             Matcher.is_step_definition_liberal self d = b)
       ∧ (∀ b, liberal d = None →
               option_liberal_steps (Matcher.config self) = Some b →
               Matcher.is_step_definition_liberal self d = b)
       ∧ (liberal d = None →
          option_liberal_steps (Matcher.config self) = None →
          Matcher.is_step_definition_liberal self d =
          getini_liberal_steps (Matcher.config self)))
  ∧ (∀ self0 f p txt nm prev d,
       type_ d = Some ACTION → liberal d = Some true →
       is_matching (parser d) txt = true →
       let reg := Some (mkRegistry [d] None) in
       let self := Matcher.enter self0 f p (mkStep CONTEXT txt nm) prev reg in
       Matcher.step_type_context self = Some CONTEXT
       ∧ hits (Matcher.strict_matcher self) [d] = []
       ∧ hits (Matcher.unspecified_matcher self) [d] = []
       ∧ hits (Matcher.liberal_matcher self) [d] = [d]
       ∧ Matcher.call self0 f p (mkStep CONTEXT txt nm) prev reg
         = (self, [], Return d)).
Proof.
  split; [|split].
  - intros self s d Hs.
    rewrite (liberal_matcher_bound self s d Hs),
            (unspecified_matcher_bound self s d Hs).
    destruct (_ || _), (is_matching _ _),
      (Matcher.is_step_definition_liberal self d),
      (bool_decide_reflect (type_ d = Matcher.step_type_context self));
      cbn; split; try done; try (intros (? & ? & ? & ?); done).
  - intros self d. unfold Matcher.is_step_definition_liberal.
    split; [|split].
    + by intros b ->.
    + by intros b -> ->.
    + by intros -> ->.
  - intros self0 f p txt nm prev d Hty Hlib Hmatch reg self.
    assert (Hs : Matcher.step self = Some (mkStep CONTEXT txt nm))
      by apply enter_step.
    assert (Hctx : Matcher.step_type_context self = Some CONTEXT).
    { unfold self. rewrite enter_context.
      destruct (Matcher.step_type_context self0); reflexivity. }
    assert (H1 : hits (Matcher.strict_matcher self) [d] = []).
    { rewrite hits_singleton, (strict_matcher_bound self _ d Hs), Hty, Hctx.
      reflexivity. }
    assert (H2 : hits (Matcher.unspecified_matcher self) [d] = []).
    { rewrite hits_singleton, (unspecified_matcher_bound self _ d Hs),
        Hty, Hctx. reflexivity. }
    assert (H3 : hits (Matcher.liberal_matcher self) [d] = [d]).
    { rewrite hits_singleton, (liberal_matcher_bound self _ d Hs).
      unfold Matcher.is_step_definition_liberal.
      rewrite Hty, Hctx, Hlib. cbn. rewrite Hmatch. reflexivity. }
    split; [exact Hctx|]. split; [exact H1|]. split; [exact H2|].
    split; [exact H3|].
    pose proof (tiers_total self _ Hs) as Htot. unfold Matcher.tiers in Htot.
    apply Forall_cons in Htot as [T1 Htot].
    apply Forall_cons in Htot as [T2 Htot].
    apply Forall_cons in Htot as [T3 _].
    assert (Hfind : Matcher.find_step_definition_matches reg
                      (Matcher.tiers self) = ([d], None)).
    { apply find_stop; [done|]. unfold Matcher.tiers.
      rewrite !scan_tiers_miss by done.
      rewrite scan_tiers_hit; [by rewrite H3 | done | by rewrite H3]. }
    unfold Matcher.call. fold self. unfold self at 1.
    rewrite candidates_enter. fold self. rewrite Hfind. reflexivity.
Qed.

(** The liberal "When foo" of the example scope serves "Given foo" when
    it is alone in its Registry. *)
Lemma C5_liberal_tier_witness :
  let reg := Some (mkRegistry [when_foo_liberal] None) in
  let self := Matcher.enter (Matcher.new example_config) example_feature
                example_scenario (mkStep CONTEXT "foo" "foo") None reg in
  Matcher.call (Matcher.new example_config) example_feature example_scenario
    (mkStep CONTEXT "foo" "foo") None reg
  = (self, [], Return when_foo_liberal)
  ∧ Matcher.liberal_matcher self when_foo_liberal = Return true.
Proof.
  intros reg self. split.
  - apply (proj2 (proj2 C5_liberal_tier) (Matcher.new example_config)
      example_feature example_scenario "foo" "foo" None when_foo_liberal);
      reflexivity.
  - apply (proj1 C5_liberal_tier self (mkStep CONTEXT "foo" "foo")
             when_foo_liberal); [reflexivity|].
    split; [vm_compute; discriminate|].
    split; [reflexivity|]. split; [vm_compute; discriminate | reflexivity].
Defined.

(** ** C7: the parameters of a step *)

(** C7.  [get_parameters] maps an argument the parser extracted to its
    value passed through the converter registered under its name, or
    unchanged when there is none, and any other name to its default:
    parsed arguments override defaults, and defaults are not converted.
    When the parser reports no arguments only the defaults remain. *)
Theorem C7_get_parameters (self : StepDefinition) (step0 : Step) :
  let parsed :=
    match parse_arguments (parser self) (name step0) with
    | Some arguments => arguments
    | None => ∅
    end in
  (∀ arg,
     get_parameters self step0 !! arg =
     match parsed !! arg with
     | Some value =>
         Some (match converters self !! arg with
               | Some convert => convert value
               | None => value
               end)
     | None => param_defaults self !! arg
     end)
  ∧ dom (get_parameters self step0) = dom parsed ∪ dom (param_defaults self).
Proof.
  intros parsed.
  assert (Hlookup : ∀ arg,
    get_parameters self step0 !! arg =
    match parsed !! arg with
    | Some value =>
        Some (match converters self !! arg with
              | Some convert => convert value
              | None => value
              end)
    | None => param_defaults self !! arg
    end).
  { intros arg. unfold get_parameters, or_empty, converter_for.
    rewrite lookup_union, map_lookup_imap.
    change (default ∅ (parse_arguments (parser self) (name step0)))
      with parsed.
    destruct (parsed !! arg) as [value|]; cbn.
    - destruct (converters self !! arg), (param_defaults self !! arg);
        reflexivity.
    - destruct (param_defaults self !! arg); reflexivity. }
  split; [exact Hlookup|].
  apply set_eq. intros arg.
  rewrite elem_of_union, !elem_of_dom, Hlookup.
  destruct (parsed !! arg) as [value|].
  - split; [intros _; left; eauto | eauto].
  - split; [by right | intros [[? ?]|?]; done].
Qed.

(** ** C8: the target fixtures of a registration *)

Lemma OrderedSet_from acc items :
  foldl OrderedSet_add acc items =
  acc ++ filter (λ y, y ∉ acc) (keep_first_occurrences items).
Proof.
  revert acc. induction items as [|x items IH]; intros acc.
  - cbn. by rewrite app_nil_r.
  - cbn [foldl keep_first_occurrences]. rewrite IH. unfold OrderedSet_add.
    case_bool_decide as Hx.
    + rewrite filter_cons_False by (intros ?; done).
      rewrite list_filter_filter. f_equal. apply list_filter_iff.
      intros y. split; [|by intros [? _]].
      intros Hy. split; [exact Hy | by intros ->].
    + rewrite filter_cons_True by done.
      rewrite list_filter_filter, <- app_assoc. cbn. do 2 f_equal.
      apply list_filter_iff. intros y.
      rewrite not_elem_of_app, list_elem_of_singleton. naive_solver.
Qed.

Lemma OrderedSet_keep_first items :
  OrderedSet items = keep_first_occurrences items.
Proof.
  unfold OrderedSet. rewrite OrderedSet_from. cbn.
  induction (keep_first_occurrences items) as [|y l IH]; [done|].
  rewrite filter_cons_True by apply not_elem_of_nil. by rewrite IH.
Qed.

Lemma keep_first_elem_of items x :
  x ∈ keep_first_occurrences items ↔ x ∈ items.
Proof.
  induction items as [|y items IH]; [done|]. cbn.
  rewrite !elem_of_cons, list_elem_of_filter, IH.
  destruct (decide (x = y)); tauto.
Qed.

Lemma keep_first_NoDup items : NoDup (keep_first_occurrences items).
Proof.
  induction items as [|y items IH]; cbn; [constructor|].
  apply NoDup_cons. split; [|by apply NoDup_filter].
  rewrite list_elem_of_filter. tauto.
Qed.

Lemma keep_first_sublist items : sublist (keep_first_occurrences items) items.
Proof.
  induction items as [|y items IH]; cbn; [constructor|].
  apply sublist_skip. etrans; [apply sublist_filter | exact IH].
Qed.

Lemma register_step_definition_stored d locals locals' :
  register_step_definition d locals = Return locals' →
  stored locals' = set_add (stored locals) d.
Proof.
  unfold register_step_definition, setdefault_step_registry_fixture, stored.
  destruct (locals !! "step_registry") as [[r|other]|] eqn:E.
  - rewrite E. intros [= <-]. by rewrite lookup_insert_eq.
  - rewrite E. discriminate.
  - rewrite lookup_insert_eq. intros [= <-]. by rewrite lookup_insert_eq.
Qed.

Lemma register_step_definition_returns d locals :
  registrable locals → ∃ locals', register_step_definition d locals = Return locals'.
Proof.
  unfold registrable, register_step_definition,
    setdefault_step_registry_fixture.
  destruct (locals !! "step_registry") as [[r|other]|] eqn:E.
  - rewrite E. eauto.
  - done.
  - rewrite lookup_insert_eq. eauto.
Qed.

Lemma decorator_effect {Parserlike} (get_parser : Parserlike → StepParser)
    step_type o step_func w w' f :
  decorator get_parser step_type o step_func w = Return (w', f) →
  f = step_func
  ∧ next_oid w' = Pos.succ (next_oid w)
  ∧ stored (caller_locals w') =
    set_add (stored (caller_locals w))
      (build_definition get_parser step_type o step_func (next_oid w)).
Proof.
  unfold decorator.
  destruct (register_step_definition _ (caller_locals w)) as [locals|e] eqn:E;
    [|discriminate].
  cbn. intros [= <- <-]. cbn.
  split; [done|]. split; [done|].
  by apply register_step_definition_stored.
Qed.

Lemma decorator_returns {Parserlike} (get_parser : Parserlike → StepParser)
    step_type o step_func w :
  registrable (caller_locals w) →
  ∃ w', decorator get_parser step_type o step_func w = Return (w', step_func).
Proof.
  intros Hreg. unfold decorator.
  destruct (register_step_definition_returns
              (build_definition get_parser step_type o step_func (next_oid w))
              _ Hreg) as [locals ->].
  cbn. eauto.
Qed.

(** C8.  [decorator_builder] warns, once, exactly when both
    [target_fixture] and [target_fixtures] are given.  The Definition its
    decorator builds and registers carries as target fixtures the single
    name followed by the list, each name kept at its first occurrence
    only: no repetition, the same names, the same order, the single name
    first.  [target_fixture="X"] with [target_fixtures=["Y","X"]] gives
    [["X","Y"]] and the one warning. *)
Theorem C8_target_fixtures {Parserlike : Type}
    (get_parser : Parserlike → StepParser)
    (step_type : option StepType) (o : Options) :
  let single := match opt_target_fixture o with Some x => [x] | None => [] end in
  let many := match opt_target_fixtures o with Some l => l | None => [] end in
  let built := decorator_builder get_parser step_type o in
  let effective := effective_target_fixtures o in
  (is_Some (opt_target_fixture o) → is_Some (opt_target_fixtures o) →
     built.1 = [BothTargetFixtures])
  ∧ (opt_target_fixture o = None ∨ opt_target_fixtures o = None →
     built.1 = [])
  ∧ (∀ step_func w,
       registrable (caller_locals w) →
       ∃ w' d,
         built.2 step_func w = Return (w', step_func)
         ∧ stored (caller_locals w') = set_add (stored (caller_locals w)) d
         ∧ func d = step_func
         ∧ target_fixtures d = effective)
  ∧ effective = keep_first_occurrences (single ++ many)
  ∧ NoDup effective
  ∧ (∀ x, x ∈ effective ↔ x ∈ single ++ many)
  ∧ sublist effective (single ++ many)
  ∧ (∀ x, opt_target_fixture o = Some x → head effective = Some x)
  ∧ (opt_target_fixture o = Some "X" →
     opt_target_fixtures o = Some ["Y"; "X"] →
     effective = ["X"; "Y"] ∧ built.1 = [BothTargetFixtures]).
Proof.
  intros single many built effective.
  assert (Heff : effective = keep_first_occurrences (single ++ many))
    by apply OrderedSet_keep_first.
  split; [|split; [|split; [|split; [|split; [|split; [|split; [|split]]]]]]].
  - intros [x Hx] [l Hl]. unfold built. cbn. unfold builder_warnings.
    by rewrite Hx, Hl.
  - unfold built. cbn. unfold builder_warnings.
    intros [-> | ->]; [done|]. by destruct (opt_target_fixture o).
  - intros step_func w Hreg. unfold built. cbn.
    destruct (decorator_returns get_parser step_type o step_func w Hreg)
      as [w' Hw'].
    exists w', (build_definition get_parser step_type o step_func (next_oid w)).
    split; [exact Hw'|].
    apply decorator_effect in Hw' as (_ & _ & Hstored).
    split; [exact Hstored|]. split; reflexivity.
  - exact Heff.
  - rewrite Heff. apply keep_first_NoDup.
  - intros x. rewrite Heff. apply keep_first_elem_of.
  - rewrite Heff. apply keep_first_sublist.
  - intros x Hx. rewrite Heff. unfold single. by rewrite Hx.
  - intros Hx Hl. split.
    + unfold effective, effective_target_fixtures. by rewrite Hx, Hl.
    + unfold built. cbn. unfold builder_warnings. by rewrite Hx, Hl.
Qed.

(** [given("foo", target_fixture="X", target_fixtures=["Y", "X"])]. *)
Lemma C8_target_fixtures_witness :
  let o := mkOptions "foo" None (Some "X") (Some ["Y"; "X"]) (PFM_bool true)
             None None in
  effective_target_fixtures o = ["X"; "Y"]
  ∧ (given exact_parser o).1 = [BothTargetFixtures].
Proof.
  intros o.
  apply (C8_target_fixtures exact_parser (Some CONTEXT) o); reflexivity.
Defined.

(** ** C3: what the Registry takes two Definitions to be the same *)

Lemma set_add_present s d :
  existsb (StepDefinition_eqb d) (set_add s d) = true.
Proof.
  unfold set_add. destruct (existsb _ s) eqn:E; [exact E|].
  rewrite existsb_app. cbn. unfold StepDefinition_eqb.
  rewrite bool_decide_eq_true_2 by done. by rewrite orb_true_r.
Qed.

Lemma set_add_idem s d : set_add (set_add s d) d = set_add s d.
Proof. unfold set_add at 1. by rewrite set_add_present. Qed.

Lemma set_add_new s d :
  (∀ x, x ∈ s → oid x ≠ oid d) → set_add s d = s ++ [d].
Proof.
  intros Hnew. unfold set_add. destruct (existsb _ s) eqn:E; [|done].
  apply existsb_exists in E as (x & Hin & Heq).
  unfold StepDefinition_eqb in Heq. apply bool_decide_eq_true in Heq.
  apply list_elem_of_In in Hin. by destruct (Hnew x Hin).
Qed.

Lemma set_add_known s d x :
  x ∈ s → oid x = oid d → set_add s d = s.
Proof.
  intros Hin Heq. unfold set_add.
  assert (existsb (StepDefinition_eqb d) s = true) as ->; [|done].
  apply existsb_exists. exists x. split; [by apply list_elem_of_In|].
  unfold StepDefinition_eqb. by apply bool_decide_eq_true.
Qed.

Lemma registered_registrable d locals locals1 :
  register_step_definition d locals = Return locals1 → registrable locals1.
Proof.
  unfold register_step_definition, setdefault_step_registry_fixture,
    registrable.
  destruct (locals !! "step_registry") as [[r|other]|] eqn:E.
  - rewrite E. intros [= <-]. by rewrite lookup_insert_eq.
  - rewrite E. discriminate.
  - rewrite lookup_insert_eq. intros [= <-]. by rewrite lookup_insert_eq.
Qed.

Lemma registrable_empty : registrable ∅.
Proof. unfold registrable. by rewrite lookup_empty. Qed.

Lemma register_again d locals locals1 :
  register_step_definition d locals = Return locals1 →
  register_step_definition d locals1 = Return locals1.
Proof.
  unfold register_step_definition, setdefault_step_registry_fixture.
  destruct (locals !! "step_registry") as [[r|other]|] eqn:E.
  - rewrite E. intros [= <-].
    repeat (rewrite lookup_insert_eq; cbn -[set_add]).
    by rewrite set_add_idem, insert_insert_eq.
  - rewrite E. discriminate.
  - rewrite lookup_insert_eq. intros [= <-].
    repeat (rewrite lookup_insert_eq; cbn -[set_add]).
    by rewrite set_add_idem, !insert_insert_eq.
Qed.

(** C3 as stated fails: [given_foo] and [given_foo_copy] have the same
    attributes, and registering both in one scope stores two entries. *)
Lemma C3_counterexample :
  same_attributes given_foo given_foo_copy
  ∧ ∃ locals1 locals2,
      register_step_definition given_foo ∅ = Return locals1
      ∧ register_step_definition given_foo_copy locals1 = Return locals2
      ∧ stored locals1 = [given_foo]
      ∧ stored locals2 ≡ₚ [given_foo; given_foo_copy]
      ∧ length (stored locals2) = 2.
Proof.
  split; [by repeat split|].
  destruct (register_step_definition_returns given_foo ∅ registrable_empty) as [l1 H1].
  destruct (register_step_definition_returns given_foo_copy l1
              (registered_registrable _ _ _ H1)) as [l2 H2].
  exists l1, l2. split; [exact H1|]. split; [exact H2|].
  apply register_step_definition_stored in H2.
  apply register_step_definition_stored in H1. rewrite H2, H1.
  by repeat split.
Qed.

(** C3, amended.  Registration deduplicates by object identity.
    Registering a Definition that is already held, or again the one just
    registered, changes nothing, so registering one object twice in a
    new scope stores exactly one entry; a Definition that is none of the
    held objects is added, whatever its attributes. *)
Theorem C3_register_dedup_by_identity
    (d : StepDefinition) (locals locals1 : gmap string LocalObj) :
  register_step_definition d locals = Return locals1 →
  register_step_definition d locals1 = Return locals1
  ∧ (locals !! "step_registry" = None → stored locals1 = [d])
  ∧ (∀ d', (∃ x, x ∈ stored locals1 ∧ oid x = oid d') →
       ∃ locals2, register_step_definition d' locals1 = Return locals2
                  ∧ stored locals2 = stored locals1)
  ∧ (∀ d', (∀ x, x ∈ stored locals1 → oid x ≠ oid d') →
       ∃ locals2, register_step_definition d' locals1 = Return locals2
                  ∧ stored locals2 ≡ₚ d' :: stored locals1).
Proof.
  intros Hreg. split; [by apply (register_again d locals)|]. split; [|split].
  - intros Hfresh. rewrite (register_step_definition_stored _ _ _ Hreg).
    unfold stored. by rewrite Hfresh.
  - intros d' (x & Hin & Hoid).
    destruct (register_step_definition_returns d' locals1
                (registered_registrable _ _ _ Hreg)) as [l2 H2].
    exists l2. split; [exact H2|].
    rewrite (register_step_definition_stored _ _ _ H2).
    by apply (set_add_known _ _ x).
  - intros d' Hnew.
    destruct (register_step_definition_returns d' locals1
                (registered_registrable _ _ _ Hreg)) as [l2 H2].
    exists l2. split; [exact H2|].
    rewrite (register_step_definition_stored _ _ _ H2).
    rewrite set_add_new by done. by rewrite Permutation_app_comm.
Qed.

(** [given_foo] registered twice in a new scope is stored once. *)
Lemma C3_register_dedup_by_identity_witness :
  ∃ locals1,
    register_step_definition given_foo ∅ = Return locals1
    ∧ register_step_definition given_foo locals1 = Return locals1
    ∧ stored locals1 = [given_foo].
Proof.
  destruct (register_step_definition_returns given_foo ∅ registrable_empty) as [l1 H1].
  exists l1. split; [exact H1|].
  destruct (C3_register_dedup_by_identity given_foo ∅ l1 H1)
    as (Hagain & Hone & _).
  split; [exact Hagain | by apply Hone].
Defined.

(** ** C4: the category the [step] decorator declares *)

(** C4.  The code at the inputs where it departs from the claim and
    from the docstring of [step] ("Liberal step decorator which could be
    used with any keyword").  [step("foo")], without a liberal flag,
    registers a Definition of category UNKNOWN, not UNSPECIFIED: it
    satisfies tier 2 under none of the contexts CONTEXT, ACTION and
    OUTCOME, and under the default configuration "Given foo", "When foo"
    and "Then foo" all end in the not-found error.
    [step("foo", liberal=True)] registers one of category UNSPECIFIED,
    which is taken at tier 2 and refused at tier 3. *)
Theorem C4_step_without_flag_serves_no_keyword :
  let foo category := mkStep category "foo" "foo" in
  let entered category reg :=
    Matcher.enter (Matcher.new example_config) example_feature
      example_scenario (foo category) None reg in
  let resolve category reg :=
    (Matcher.call (Matcher.new example_config) example_feature
       example_scenario (foo category) None reg).2 in
  let only d := Some (mkRegistry [d] None) in
  match (step exact_parser (default_options "foo")).2 "any_foo" empty_world with
  | Return (w, _) => stored (caller_locals w) = [step_foo]
  | Raise _ => False
  end
  ∧ type_ step_foo = Some UNKNOWN
  ∧ liberal step_foo = None
  ∧ Matcher.unspecified_matcher (entered CONTEXT (only step_foo)) step_foo
    = Return false
  ∧ Matcher.unspecified_matcher (entered ACTION (only step_foo)) step_foo
    = Return false
  ∧ Matcher.unspecified_matcher (entered OUTCOME (only step_foo)) step_foo
    = Return false
  ∧ resolve CONTEXT (only step_foo) = Raise MatchNotFoundError
  ∧ resolve ACTION (only step_foo) = Raise MatchNotFoundError
  ∧ resolve OUTCOME (only step_foo) = Raise MatchNotFoundError
  ∧ match (step exact_parser
             (mkOptions "foo" None None None (PFM_bool true) None (Some true))).2
            "any_foo" empty_world with
    | Return (w, _) => stored (caller_locals w) = [step_foo_liberal]
    | Raise _ => False
    end
  ∧ type_ step_foo_liberal = Some UNSPECIFIED
  ∧ Matcher.unspecified_matcher
      (entered CONTEXT (only step_foo_liberal)) step_foo_liberal
    = Return true
  ∧ Matcher.liberal_matcher
      (entered CONTEXT (only step_foo_liberal)) step_foo_liberal
    = Return false.
Proof. cbv zeta. repeat split; vm_compute; reflexivity. Qed.

(** * Further properties of the code *)

(** ** The search stops at the first match, chain first, tiers second *)

Lemma scan_tiers_first matchers defs :
  Forall total matchers →
  (Matcher.scan_tiers matchers defs).1 ≠ [] →
  ∃ earlier m later,
    matchers = earlier ++ m :: later
    ∧ (Matcher.scan_tiers matchers defs).1 = hits m defs
    ∧ ∀ m', m' ∈ earlier → hits m' defs = [].
Proof.
  induction 1 as [|m ms Hm Hms IH]; [done|].
  destruct (decide (hits m defs = [])) as [Hnil|Hne].
  - rewrite scan_tiers_miss by done. intros Hsome.
    destruct (IH Hsome) as (earlier & m0 & later & -> & Heq & Hearlier).
    exists (m :: earlier), m0, later. split; [done|]. split; [done|].
    intros m' [->|?]%elem_of_cons; auto.
  - intros _. exists [], m, ms. rewrite scan_tiers_hit by done.
    split; [done|]. split; [done|]. by intros m' ?%elem_of_nil.
Qed.

Lemma find_in_first r matchers :
  Forall total matchers →
  (Matcher.find_in r matchers).1 ≠ [] →
  ∃ nearer defs farther earlier m later,
    chain_in r = nearer ++ defs :: farther
    ∧ matchers = earlier ++ m :: later
    ∧ (Matcher.find_in r matchers).1 = hits m defs
    ∧ (∀ defs' m', defs' ∈ nearer → m' ∈ matchers → hits m' defs' = [])
    ∧ ∀ m', m' ∈ earlier → hits m' defs = [].
Proof.
  intros Htot.
  assert (Hhere : ∀ defs farther,
    (Matcher.scan_tiers matchers defs).1 ≠ [] →
    ∃ nearer defs0 farther0 earlier m later,
      defs :: farther = nearer ++ defs0 :: farther0
      ∧ matchers = earlier ++ m :: later
      ∧ (Matcher.scan_tiers matchers defs).1 = hits m defs0
      ∧ (∀ defs' m', defs' ∈ nearer → m' ∈ matchers → hits m' defs' = [])
      ∧ ∀ m', m' ∈ earlier → hits m' defs0 = []).
  { intros defs farther Hsome.
    destruct (scan_tiers_first matchers defs Htot Hsome)
      as (earlier & m & later & Hms & Heq & Hearlier).
    exists [], defs, farther, earlier, m, later.
    repeat split; try done. by intros defs' m' ?%elem_of_nil. }
  induction r as [defs|defs p IH] using Registry_ind;
    cbn [Matcher.find_in chain_in];
    pose proof (scan_tiers_no_raise matchers defs Htot) as Hraise;
    pose proof (scan_tiers_nil_iff matchers defs Htot) as Hnil;
    pose proof (Hhere defs) as Hhere';
    destruct (Matcher.scan_tiers matchers defs) as [[|y ys] e];
    cbn in Hraise, Hnil, Hhere'; subst e; cbn [fst].
  - done.
  - intros _. by apply Hhere'.
  - rewrite suppress_fst. intros Hsome.
    destruct (IH Hsome)
      as (nearer & defs0 & farther & earlier & m & later
          & Hchain & Hms & Heq & Hnearer & Hearlier).
    exists (defs :: nearer), defs0, farther, earlier, m, later.
    split; [by rewrite Hchain|]. split; [done|]. split; [done|].
    split; [|done].
    intros defs' m' [->|?]%elem_of_cons Hm'; [|by apply Hnearer].
    by apply (proj1 Hnil).
  - intros _. by apply Hhere'.
Qed.

Lemma find_first registry0 matchers :
  Forall total matchers →
  (Matcher.find_step_definition_matches registry0 matchers).1 ≠ [] →
  ∃ nearer defs farther earlier m later,
    chain registry0 = nearer ++ defs :: farther
    ∧ matchers = earlier ++ m :: later
    ∧ (Matcher.find_step_definition_matches registry0 matchers).1 = hits m defs
    ∧ (∀ defs' m', defs' ∈ nearer → m' ∈ matchers → hits m' defs' = [])
    ∧ ∀ m', m' ∈ earlier → hits m' defs = [].
Proof.
  destruct registry0 as [r|]; [apply find_in_first | done].
Qed.

(** What a matcher of the call accepts matches the text of the step. *)
Lemma tiers_accept_matching self s m d :
  Matcher.step self = Some s → m ∈ Matcher.tiers self →
  m d = Return true → is_matching (parser d) (text s) = true.
Proof.
  intros Hs Hm. unfold Matcher.tiers in Hm.
  rewrite !elem_of_cons in Hm. destruct Hm as [->|[->|[->|Hm]]].
  - rewrite (strict_matcher_bound self s d Hs). intros [= H].
    by apply andb_true_iff in H as [_ H].
  - rewrite (unspecified_matcher_bound self s d Hs). intros [= H].
    by apply andb_true_iff in H as [_ H].
  - rewrite (liberal_matcher_bound self s d Hs). intros [= H].
    by apply andb_true_iff in H as [_ H].
  - by apply elem_of_nil in Hm.
Qed.

Lemma hits_elem_of matcher defs d :
  d ∈ hits matcher defs ↔ matcher d = Return true ∧ d ∈ defs.
Proof. exact (list_elem_of_filter (λ d, matcher d = Return true) defs d). Qed.

(** What a call makes of the candidate list. *)
Lemma call_outcome self0 f p s prev reg :
  Matcher.call self0 f p s prev reg =
  let self := Matcher.enter self0 f p s prev reg in
  match (Matcher.find_step_definition_matches reg (Matcher.tiers self)).1 with
  | [] => (self, [], Raise MatchNotFoundError)
  | [d] => (self, [], Return d)
  | d :: ds => (self, [AlternativeStepDefinitions (d :: ds)], Return d)
  end.
Proof.
  unfold Matcher.call. rewrite candidates_return. cbv zeta.
  destruct (Matcher.find_step_definition_matches _ _).1 as [|d [|d' ds]];
    reflexivity.
Qed.

(** X1.  When a call returns a Definition, the candidates are the whole
    match set of one tier at one Registry of the chain; no tier matches
    in a nearer Registry, and no earlier tier matches in that Registry.
    The Definition returned is the first candidate; it is held by that
    Registry and its pattern matches the text of the step.  A warning is
    emitted only when there are further candidates, and names them all. *)
Theorem X1_first_match
    (self0 self : Matcher.t) (feature0 : Feature) (pickle0 : Scenario)
    (step0 : Step) (previous_step0 : option Step)
    (step_registry0 : option Registry)
    (emitted : list Warning) (d : StepDefinition) :
  Matcher.call self0 feature0 pickle0 step0 previous_step0 step_registry0
  = (self, emitted, Return d) →
  ∃ nearer defs farther earlier m later others,
    chain step_registry0 = nearer ++ defs :: farther
    ∧ Matcher.tiers self = earlier ++ m :: later
    ∧ hits m defs = d :: others
    ∧ Matcher.candidates self = Return (d :: others)
    ∧ (∀ defs' m', defs' ∈ nearer → m' ∈ Matcher.tiers self →
                   hits m' defs' = [])
    ∧ (∀ m', m' ∈ earlier → hits m' defs = [])
    ∧ d ∈ defs
    ∧ is_matching (parser d) (text step0) = true
    ∧ emitted = match others with
                | [] => []
                | _ :: _ => [AlternativeStepDefinitions (d :: others)]
                end.
Proof.
  rewrite call_outcome. cbv zeta.
  set (entered := Matcher.enter self0 feature0 pickle0 step0 previous_step0
                    step_registry0).
  pose proof (enter_tiers_total self0 feature0 pickle0 step0 previous_step0
                step_registry0) as Htot.
  pose proof (find_first step_registry0 (Matcher.tiers entered) Htot) as Hfirst.
  pose proof (candidates_return self0 feature0 pickle0 step0 previous_step0
                step_registry0) as Hcand.
  fold entered in Htot, Hcand.
  destruct (Matcher.find_step_definition_matches step_registry0
              (Matcher.tiers entered)).1 as [|d0 others] eqn:Hds;
    [discriminate|].
  intros Hcall.
  assert (self = entered ∧ d0 = d
          ∧ emitted = match others with
                      | [] => []
                      | _ :: _ => [AlternativeStepDefinitions (d0 :: others)]
                      end) as (-> & -> & ->).
  { destruct others; by injection Hcall as <- <- <-. }
  destruct Hfirst as (nearer & defs & farther & earlier & m & later
                      & Hchain & Hms & Heq & Hnearer & Hearlier); [done|].
  exists nearer, defs, farther, earlier, m, later, others.
  assert (Hd : d ∈ hits m defs) by (rewrite <- Heq; by left).
  apply hits_elem_of in Hd as [Hmd Hin].
  repeat split; try done.
  apply (tiers_accept_matching entered step0 m d).
  - apply enter_step.
  - rewrite Hms. apply elem_of_app. right. by left.
  - exact Hmd.
Qed.

(** "Given bar" from the example scope is resolved by the parent: the
    nearer Registry has no match. *)
Lemma X1_first_match_witness :
  ∃ nearer defs farther earlier m later others,
    chain (Some example_registry) = nearer ++ defs :: farther
    ∧ Matcher.tiers (example_enter CONTEXT "bar") = earlier ++ m :: later
    ∧ hits m defs = parent_given_bar :: others
    ∧ parent_given_bar ∈ defs.
Proof.
  destruct (X1_first_match (Matcher.new example_config)
              (example_enter CONTEXT "bar") example_feature example_scenario
              (mkStep CONTEXT "bar" "bar") None (Some example_registry)
              [] parent_given_bar eq_refl)
    as (nearer & defs & farther & earlier & m & later & others
        & H1 & H2 & H3 & _ & _ & _ & H4 & _).
  by exists nearer, defs, farther, earlier, m, later, others.
Defined.

(** ** Which steps can be resolved *)

Lemma enter_config self0 f p s prev reg :
  Matcher.config (Matcher.enter self0 f p s prev reg) = Matcher.config self0.
Proof.
  unfold Matcher.enter, Matcher.normalize_context.
  destruct (bool_decide _); reflexivity.
Qed.

Lemma enter_liberal self0 f p s prev reg d :
  Matcher.is_step_definition_liberal (Matcher.enter self0 f p s prev reg) d
  = Matcher.is_step_definition_liberal self0 d.
Proof.
  unfold Matcher.is_step_definition_liberal. by rewrite enter_config.
Qed.

(** Some tier accepts a Definition exactly when its pattern matches and
    its category agrees with the context, or one of the two is
    UNSPECIFIED, or the Definition is liberal. *)
Lemma accepted_iff self s d :
  Matcher.step self = Some s →
  (∃ m, m ∈ Matcher.tiers self ∧ m d = Return true) ↔
  is_matching (parser d) (text s) = true
  ∧ (type_ d = Matcher.step_type_context self
     ∨ type_ d = Some UNSPECIFIED
     ∨ Matcher.step_type_context self = Some UNSPECIFIED
     ∨ Matcher.is_step_definition_liberal self d = true).
Proof.
  intros Hs. split.
  - intros (m & Hm & Hmd).
    split; [by apply (tiers_accept_matching self s m d)|].
    unfold Matcher.tiers in Hm. rewrite !elem_of_cons in Hm.
    destruct Hm as [->|[->|[->|Hm]]]; [| | |by apply elem_of_nil in Hm].
    + rewrite (strict_matcher_bound self s d Hs) in Hmd.
      injection Hmd as Hmd. apply andb_true_iff in Hmd as [Hty _].
      left. by apply bool_decide_eq_true in Hty.
    + rewrite (unspecified_matcher_bound self s d Hs) in Hmd.
      injection Hmd as Hmd. apply andb_true_iff in Hmd as [Hty _].
      apply orb_true_iff in Hty as [Hty|Hty];
        apply bool_decide_eq_true in Hty; auto.
    + rewrite (liberal_matcher_bound self s d Hs) in Hmd.
      injection Hmd as Hmd. rewrite !andb_true_iff in Hmd.
      destruct Hmd as [[[_ Hlib] _] _]. auto.
  - intros [Hmatch Hwhy].
    destruct (decide (type_ d = Matcher.step_type_context self)) as [Hty|Hty].
    { exists (Matcher.strict_matcher self). split; [by left|].
      rewrite (strict_matcher_bound self s d Hs), Hmatch.
      by rewrite bool_decide_eq_true_2. }
    destruct (decide (Matcher.step_type_context self = Some UNSPECIFIED
                      ∨ type_ d = Some UNSPECIFIED)) as [Hun|Hun].
    { exists (Matcher.unspecified_matcher self).
      split; [right; by left|].
      rewrite (unspecified_matcher_bound self s d Hs), Hmatch.
      destruct Hun as [Hun|Hun]; rewrite (bool_decide_eq_true_2 _ Hun);
        by rewrite ?orb_true_r. }
    exists (Matcher.liberal_matcher self).
    split; [right; right; by left|].
    rewrite (liberal_matcher_bound self s d Hs), Hmatch.
    assert (Matcher.is_step_definition_liberal self d = true) as ->
      by (destruct Hwhy as [?|[?|[?|?]]]; tauto).
    rewrite (bool_decide_eq_false_2 _ Hty).
    rewrite (bool_decide_eq_false_2
               (Matcher.step_type_context self = Some UNSPECIFIED))
      by tauto.
    rewrite (bool_decide_eq_false_2 (type_ d = Some UNSPECIFIED)) by tauto.
    reflexivity.
Qed.

(** X2.  A call returns a Definition exactly when some Registry of the
    chain holds a Definition whose pattern matches the text of the step
    and whose category is the context of the call, or is UNSPECIFIED, or
    the context is UNSPECIFIED, or whose effective liberal flag is true;
    otherwise it raises the not-found error. *)
Theorem X2_resolvable
    (self0 : Matcher.t) (feature0 : Feature) (pickle0 : Scenario)
    (step0 : Step) (previous_step0 : option Step)
    (step_registry0 : option Registry) :
  let self := Matcher.enter self0 feature0 pickle0 step0 previous_step0
                step_registry0 in
  let outcome := Matcher.call self0 feature0 pickle0 step0 previous_step0
                   step_registry0 in
  let resolvable :=
    ∃ defs d,
      defs ∈ chain step_registry0 ∧ d ∈ defs
      ∧ is_matching (parser d) (text step0) = true
      ∧ (type_ d = Matcher.step_type_context self
         ∨ type_ d = Some UNSPECIFIED
         ∨ Matcher.step_type_context self = Some UNSPECIFIED
         ∨ Matcher.is_step_definition_liberal self0 d = true) in
  ((∃ emitted d, outcome = (self, emitted, Return d)) ↔ resolvable)
  ∧ (outcome = (self, [], Raise MatchNotFoundError) ↔ ¬ resolvable).
Proof.
  intros self outcome resolvable.
  pose proof (enter_tiers_total self0 feature0 pickle0 step0 previous_step0
                step_registry0) as Htot.
  pose proof (enter_step self0 feature0 pickle0 step0 previous_step0
                step_registry0) as Hs.
  fold self in Htot, Hs.
  assert (Hlib : ∀ d, Matcher.is_step_definition_liberal self d
                      = Matcher.is_step_definition_liberal self0 d)
    by (intros d; apply enter_liberal).
  assert (Hnone :
    (Matcher.find_step_definition_matches step_registry0
       (Matcher.tiers self)).1 = [] → ¬ resolvable).
  { rewrite (find_nil_iff _ _ Htot).
    intros Hall (defs & d & Hdefs & Hd & Hmatch & Hwhy).
    destruct (proj2 (accepted_iff self step0 d Hs)) as (m & Hm & Hmd).
    { split; [done|]. by rewrite Hlib. }
    assert (Hin : d ∈ hits m defs) by by apply hits_elem_of.
    rewrite (Hall defs Hdefs m Hm) in Hin. by apply elem_of_nil in Hin. }
  assert (Hsome :
    (Matcher.find_step_definition_matches step_registry0
       (Matcher.tiers self)).1 ≠ [] → resolvable).
  { intros Hne.
    destruct (find_first _ _ Htot Hne)
      as (nearer & defs & farther & earlier & m & later
          & Hchain & Hms & Heq & _ & _).
    destruct (hits m defs) as [|d ds] eqn:Hhits; [by rewrite Heq in Hne|].
    assert (Hd : d ∈ hits m defs) by (rewrite Hhits; by left).
    apply hits_elem_of in Hd as [Hmd Hd].
    destruct (proj1 (accepted_iff self step0 d Hs)) as [Hmatch Hwhy].
    { exists m. split; [|done]. rewrite Hms. apply elem_of_app.
      right. by left. }
    exists defs, d. rewrite Hlib in Hwhy.
    split; [|done]. rewrite Hchain. apply elem_of_app. right. by left. }
  unfold outcome. rewrite call_outcome. cbv zeta. fold self.
  destruct (Matcher.find_step_definition_matches step_registry0
              (Matcher.tiers self)).1 as [|d [|d' ds]] eqn:Hds.
  - specialize (Hnone eq_refl). split.
    + split; [by intros (? & ? & ?) | done].
    + done.
  - assert (Hres : resolvable) by by apply Hsome.
    split; [split; [done | by eauto]|]. split; [done | by intros Hno].
  - assert (Hres : resolvable) by by apply Hsome.
    split; [split; [done | by eauto]|]. split; [done | by intros Hno].
Qed.

(** ** The iteration order of the sets *)

Lemma hits_ext m m' defs :
  (∀ d, m d = m' d) → hits m defs = hits m' defs.
Proof.
  intros Hext. unfold hits. apply list_filter_iff. intros d.
  by rewrite Hext.
Qed.

Lemma hits_perm m defs defs' : defs ≡ₚ defs' → hits m defs ≡ₚ hits m defs'.
Proof. intros Hp. unfold hits. by rewrite Hp. Qed.

Lemma scan_tiers_fst_cons m ms defs :
  total m →
  (Matcher.scan_tiers (m :: ms) defs).1 =
  match hits m defs with
  | [] => (Matcher.scan_tiers ms defs).1
  | ys => ys
  end.
Proof.
  intros Hm. destruct (hits m defs) as [|y ys] eqn:E.
  - by rewrite scan_tiers_miss.
  - rewrite scan_tiers_hit; [by rewrite E | done | by rewrite E].
Qed.

Lemma find_fst_unfold defs parent0 matchers :
  Forall total matchers →
  (Matcher.find_step_definition_matches (Some (mkRegistry defs parent0))
     matchers).1 =
  match (Matcher.scan_tiers matchers defs).1 with
  | [] => (Matcher.find_step_definition_matches parent0 matchers).1
  | ys => ys
  end.
Proof.
  intros Htot. rewrite find_unfold.
  pose proof (scan_tiers_no_raise matchers defs Htot) as Hraise.
  destruct (Matcher.scan_tiers matchers defs) as [[|y ys] e];
    cbn in Hraise; subst e; [|reflexivity].
  by rewrite suppress_fst.
Qed.

Lemma scan_tiers_perm ms ms' defs defs' :
  Forall total ms → Forall2 (λ m m', ∀ d, m d = m' d) ms ms' →
  defs ≡ₚ defs' →
  (Matcher.scan_tiers ms defs).1 ≡ₚ (Matcher.scan_tiers ms' defs').1.
Proof.
  intros Htot Hext Hp. revert Htot.
  induction Hext as [|m m' ms ms' Hm _ IH]; intros Htot; [done|].
  apply Forall_cons in Htot as [Hm_total Htot].
  assert (Hm'_total : total m').
  { intros d. destruct (Hm_total d) as [b Hb]. exists b. by rewrite <- Hm. }
  rewrite !scan_tiers_fst_cons by done.
  pose proof (hits_perm m defs defs' Hp) as Hhits.
  rewrite (hits_ext m m' defs' Hm) in Hhits.
  destruct (hits m defs) as [|y ys].
  - apply Permutation_nil_l in Hhits as <-. by apply IH.
  - destruct (hits m' defs') as [|y' ys'];
      [by apply Permutation_nil_r in Hhits | done].
Qed.

Lemma total_ext ms ms' :
  Forall total ms → Forall2 (λ m m', ∀ d, m d = m' d) ms ms' →
  Forall total ms'.
Proof.
  intros Htot Hext. revert Htot.
  induction Hext as [|m m' ms ms' Hm _ IH]; intros Htot; [done|].
  apply Forall_cons in Htot as [Hm_total Htot].
  constructor; [|by apply IH].
  intros d. destruct (Hm_total d) as [b Hb]. exists b. by rewrite <- Hm.
Qed.

Lemma find_perm ms ms' reg reg' :
  Forall total ms → Forall2 (λ m m', ∀ d, m d = m' d) ms ms' →
  chain_perm reg reg' →
  (Matcher.find_step_definition_matches reg ms).1
  ≡ₚ (Matcher.find_step_definition_matches reg' ms').1.
Proof.
  intros Htot Hext Hchain.
  pose proof (total_ext ms ms' Htot Hext) as Htot'.
  induction Hchain as [|defs defs' p p' Hp _ IH]; [done|].
  rewrite !find_fst_unfold by done.
  pose proof (scan_tiers_perm ms ms' defs defs' Htot Hext Hp) as Hs.
  destruct (Matcher.scan_tiers ms defs).1 as [|y ys].
  - apply Permutation_nil_l in Hs as <-. exact IH.
  - destruct (Matcher.scan_tiers ms' defs').1 as [|y' ys'];
      [by apply Permutation_nil_r in Hs | done].
Qed.

(** The matchers read the configuration, the step and the context of
    the Matcher, nothing else. *)
Lemma tiers_ext self self' :
  Matcher.config self = Matcher.config self' →
  Matcher.step self = Matcher.step self' →
  Matcher.step_type_context self = Matcher.step_type_context self' →
  Forall2 (λ m m', ∀ d, m d = m' d) (Matcher.tiers self) (Matcher.tiers self').
Proof.
  intros Hc Hs Hx. unfold Matcher.tiers.
  assert (Htext : Matcher.step_text self = Matcher.step_text self')
    by (unfold Matcher.step_text; by rewrite Hs).
  assert (Hun : ∀ d, Matcher.unspecified_matcher self d
                     = Matcher.unspecified_matcher self' d)
    by (intros d; unfold Matcher.unspecified_matcher; by rewrite Hx, Htext).
  repeat constructor; intros d.
  - unfold Matcher.strict_matcher. by rewrite Hx, Htext.
  - apply Hun.
  - unfold Matcher.liberal_matcher, Matcher.is_step_definition_liberal.
    by rewrite Hun, Hx, Htext, Hc.
Qed.

Lemma enter_tiers_ext self0 f p s prev reg reg' :
  Forall2 (λ m m', ∀ d, m d = m' d)
    (Matcher.tiers (Matcher.enter self0 f p s prev reg))
    (Matcher.tiers (Matcher.enter self0 f p s prev reg')).
Proof.
  apply tiers_ext.
  - by rewrite !enter_config.
  - by rewrite !enter_step.
  - by rewrite !enter_context.
Qed.

(** X3.  Two chains that differ only in the order in which their sets
    are iterated give the same candidates up to order.  So the order
    decides neither whether a call fails nor whether it warns, and a
    call with a single candidate returns the same Definition under
    every order; only the choice among several candidates depends on
    it. *)
Theorem X3_iteration_order
    (self0 : Matcher.t) (feature0 : Feature) (pickle0 : Scenario)
    (step0 : Step) (previous_step0 : option Step)
    (reg reg' : option Registry) :
  chain_perm reg reg' →
  let outcome := Matcher.call self0 feature0 pickle0 step0 previous_step0 reg in
  let outcome' := Matcher.call self0 feature0 pickle0 step0 previous_step0 reg' in
  ∃ ds ds',
    Matcher.candidates outcome.1.1 = Return ds
    ∧ Matcher.candidates outcome'.1.1 = Return ds'
    ∧ ds ≡ₚ ds'
    ∧ (outcome.2 = Raise MatchNotFoundError ↔
       outcome'.2 = Raise MatchNotFoundError)
    ∧ (outcome.1.2 = [] ↔ outcome'.1.2 = [])
    ∧ (∀ d, ds = [d] → outcome.2 = Return d ∧ outcome'.2 = Return d).
Proof.
  intros Hchain outcome outcome'.
  set (self := Matcher.enter self0 feature0 pickle0 step0 previous_step0 reg).
  set (self' := Matcher.enter self0 feature0 pickle0 step0 previous_step0 reg').
  pose proof (find_perm (Matcher.tiers self) (Matcher.tiers self') reg reg'
                (enter_tiers_total _ _ _ _ _ _) (enter_tiers_ext _ _ _ _ _ _ _)
                Hchain) as Hperm.
  exists (Matcher.find_step_definition_matches reg (Matcher.tiers self)).1,
         (Matcher.find_step_definition_matches reg' (Matcher.tiers self')).1.
  unfold outcome, outcome'. rewrite !call_state, !candidates_return.
  fold self self'. split; [done|]. split; [done|]. split; [exact Hperm|].
  rewrite !call_outcome. cbv zeta. fold self self'.
  destruct (Matcher.find_step_definition_matches reg (Matcher.tiers self)).1
    as [|d [|d2 ds]].
  - apply Permutation_nil_l in Hperm as <-. cbn.
    split; [done|]. split; [done|]. done.
  - apply Permutation_singleton_l in Hperm as <-. cbn.
    split; [done|]. split; [done|]. by intros d0 [= ->].
  - destruct (Matcher.find_step_definition_matches reg' (Matcher.tiers self')).1
      as [|d' [|d2' ds']].
    + by apply Permutation_nil_r in Hperm.
    + by apply Permutation_singleton_r in Hperm.
    + cbn. split; [done|]. split; [done|]. done.
Qed.

(** The example scope with the members of both sets in the other order. *)
Lemma X3_iteration_order_witness :
  let swapped :=
    mkRegistry [when_foo_liberal; given_foo]
      (Some (mkRegistry [parent_given_bar; parent_given_foo] None)) in
  (Matcher.call (Matcher.new example_config) example_feature example_scenario
     (mkStep CONTEXT "bar" "bar") None (Some example_registry)).2
  = Return parent_given_bar
  ∧ (Matcher.call (Matcher.new example_config) example_feature
       example_scenario (mkStep CONTEXT "bar" "bar") None (Some swapped)).2
    = Return parent_given_bar.
Proof.
  intros swapped.
  assert (Hchain : chain_perm (Some example_registry) (Some swapped)).
  { repeat constructor. }
  destruct (X3_iteration_order (Matcher.new example_config) example_feature
              example_scenario (mkStep CONTEXT "bar" "bar") None
              (Some example_registry) (Some swapped) Hchain)
    as (ds & ds' & Hds & _ & _ & _ & _ & Hone).
  apply Hone. vm_compute in Hds. by injection Hds.
Defined.

(** ** The context along a scenario *)

Lemma last_explicit_snoc categories c :
  last_explicit (categories ++ [c]) =
  match c with
  | CONJUNCTION | UNKNOWN => last_explicit categories
  | _ => Some c
  end.
Proof.
  induction categories as [|c0 categories IH]; cbn.
  - by destruct c.
  - rewrite IH. destruct c; try reflexivity.
Qed.

Lemma last_explicit_explicit categories c :
  last_explicit categories = Some c → c ≠ CONJUNCTION ∧ c ≠ UNKNOWN.
Proof.
  induction categories as [|c0 categories IH]; cbn; [done|].
  destruct (last_explicit categories) as [c'|].
  - intros [= <-]. by apply IH.
  - destruct c0; intros [= <-]; done.
Qed.

Lemma settled_not_conjunction context categories :
  default (settle context) (last_explicit categories) ≠ CONJUNCTION.
Proof.
  destruct (last_explicit categories) as [c|] eqn:E; cbn.
  - by apply last_explicit_explicit in E as [? _].
  - by destruct context as [[]|].
Qed.

Lemma invoke_context self i :
  Matcher.step_type_context (invoke self i) =
  match Matcher.step_type_context self, type (inv_step i) with
  | Some c, (CONJUNCTION | UNKNOWN) =>
      Some (if bool_decide (c = CONJUNCTION) then UNKNOWN else c)
  | _, CONJUNCTION => Some UNKNOWN
  | _, category => Some category
  end.
Proof. apply call_context. Qed.

(** X4.  After the calls for the steps of a scenario, whatever they
    returned or raised, the context of the Matcher is the category of
    the last step that is neither a CONJUNCTION nor an UNKNOWN one; when
    there is no such step it is the context the Matcher started with,
    with UNKNOWN in place of CONJUNCTION or of no context. *)
Theorem X4_context_of_a_run (self0 : Matcher.t) (invocations : list Invocation) :
  invocations ≠ [] →
  Matcher.step_type_context (run self0 invocations) =
  Some (default (settle (Matcher.step_type_context self0))
          (last_explicit ((λ i, type (inv_step i)) <$> invocations))).
Proof.
  induction invocations as [|i invocations IH] using rev_ind; [done|].
  intros _. unfold run. rewrite foldl_snoc. fold (run self0 invocations).
  rewrite invoke_context, fmap_app. cbn [fmap list_fmap].
  rewrite last_explicit_snoc.
  destruct invocations as [|i0 invocations].
  - cbn. destruct (Matcher.step_type_context self0) as [[]|],
      (type (inv_step i)); reflexivity.
  - rewrite IH by done.
    pose proof (settled_not_conjunction (Matcher.step_type_context self0)
                  ((λ i, type (inv_step i)) <$> i0 :: invocations)) as Hc.
    rewrite (bool_decide_eq_false_2 _ Hc).
    by destruct (type (inv_step i)).
Qed.

(** "Given, And, When, But, And" ends in ACTION, and "And, And" on a new
    Matcher in UNKNOWN. *)
Lemma X4_context_of_a_run_witness :
  let at_step category :=
    mkInvocation example_feature example_scenario
      (mkStep category "foo" "foo") None (Some example_registry) in
  Matcher.step_type_context
    (run (Matcher.new example_config)
       (at_step <$> [CONTEXT; CONJUNCTION; ACTION; CONJUNCTION; CONJUNCTION]))
  = Some ACTION
  ∧ Matcher.step_type_context
      (run (Matcher.new example_config)
         (at_step <$> [CONJUNCTION; CONJUNCTION]))
    = Some UNKNOWN.
Proof.
  intros at_step. split.
  - rewrite (X4_context_of_a_run (Matcher.new example_config)
               (at_step <$> [CONTEXT; CONJUNCTION; ACTION; CONJUNCTION;
                             CONJUNCTION])) by discriminate.
    reflexivity.
  - rewrite (X4_context_of_a_run (Matcher.new example_config)
               (at_step <$> [CONJUNCTION; CONJUNCTION])) by discriminate.
    reflexivity.
Defined.

(** ** What a decoration leaves behind *)

Lemma set_add_elem_of s d x : x ∈ set_add s d → x ∈ s ∨ x = d.
Proof.
  unfold set_add. destruct (existsb _ s); [by left|].
  rewrite elem_of_app, list_elem_of_singleton. tauto.
Qed.

Lemma register_step_definition_other d locals locals' k :
  register_step_definition d locals = Return locals' →
  k ≠ "step_registry" → locals' !! k = locals !! k.
Proof.
  unfold register_step_definition, setdefault_step_registry_fixture.
  intros Hreg Hk.
  destruct (locals !! "step_registry") as [[r|other]|] eqn:E.
  - rewrite E in Hreg. injection Hreg as <-. by rewrite lookup_insert_ne.
  - rewrite E in Hreg. discriminate.
  - rewrite lookup_insert_eq in Hreg. injection Hreg as <-.
    by rewrite !lookup_insert_ne.
Qed.

Lemma register_step_definition_module d locals locals' :
  register_step_definition d locals = Return locals' →
  ∃ r, module_registry locals' = Some r
       ∧ registry r = set_add (stored locals) d
       ∧ parent r = match module_registry locals with
                    | Some r0 => parent r0
                    | None => None
                    end.
Proof.
  unfold register_step_definition, setdefault_step_registry_fixture,
    module_registry, stored.
  destruct (locals !! "step_registry") as [[r|other]|] eqn:E.
  - rewrite E. intros [= <-]. rewrite lookup_insert_eq. eauto.
  - rewrite E. discriminate.
  - rewrite lookup_insert_eq. intros [= <-]. rewrite lookup_insert_eq. eauto.
Qed.

Lemma World_wf_empty : World_wf empty_world.
Proof.
  split; [exact registrable_empty|]. split.
  - intros d Hd. unfold stored in Hd. cbn in Hd.
    rewrite lookup_empty in Hd. by apply elem_of_nil in Hd.
  - intros f ds d Hf. cbn in Hf. by rewrite lookup_empty in Hf.
Qed.

(** A decoration in a well-formed module. *)
Lemma decorator_wf {Parserlike} (get_parser : Parserlike → StepParser)
    step_type o step_func w :
  World_wf w →
  let d := build_definition get_parser step_type o step_func (next_oid w) in
  ∃ w',
    decorator get_parser step_type o step_func w = Return (w', step_func)
    ∧ World_wf w'
    ∧ next_oid w' = Pos.succ (next_oid w)
    ∧ stored (caller_locals w') = stored (caller_locals w) ++ [d]
    ∧ step_definitions_attr w' =
      <[step_func := default [] (step_definitions_attr w !! step_func) ++ [d]]>
        (step_definitions_attr w)
    ∧ (∀ k, k ≠ "step_registry" →
            caller_locals w' !! k = caller_locals w !! k).
Proof.
  intros (Hreg & Hstored & Hattrs) d.
  destruct (decorator_returns get_parser step_type o step_func w Hreg)
    as [w' Hw'].
  exists w'. split; [exact Hw'|].
  pose proof (decorator_effect _ _ _ _ _ _ _ Hw') as (_ & Hnext & Hst).
  fold d in Hst.
  assert (Hnew : set_add (stored (caller_locals w)) d
                 = stored (caller_locals w) ++ [d]).
  { apply set_add_new. intros x Hx Heq. apply Hstored in Hx.
    rewrite Heq in Hx. cbn in Hx. lia. }
  assert (Hnew' : set_add (default [] (step_definitions_attr w !! step_func)) d
                  = default [] (step_definitions_attr w !! step_func) ++ [d]).
  { apply set_add_new. intros x Hx Heq.
    destruct (step_definitions_attr w !! step_func) as [ds|] eqn:E;
      [|by apply elem_of_nil in Hx].
    apply (Hattrs _ _ _ E) in Hx. rewrite Heq in Hx. cbn in Hx. lia. }
  rewrite Hnew in Hst.
  unfold decorator in Hw'. fold d in Hw'.
  destruct (register_step_definition d (caller_locals w)) as [locals|e] eqn:E;
    [|discriminate].
  cbn in Hw'. injection Hw' as <-. cbn in *.
  split; [|split; [done|split; [done|split; [by rewrite Hnew'|]]]].
  - split; [by apply (registered_registrable d (caller_locals w))|]. split.
    + cbn. rewrite Hst. intros x [Hx| ->%list_elem_of_singleton]%elem_of_app.
      * apply Hstored in Hx. lia.
      * cbn. lia.
    + cbn. intros f ds x Hf Hx.
      destruct (decide (f = step_func)) as [->|Hne].
      * rewrite lookup_insert_eq in Hf. injection Hf as <-.
        apply set_add_elem_of in Hx as [Hx| ->]; [|cbn; lia].
        destruct (step_definitions_attr w !! step_func) as [ds|] eqn:E';
          [|by apply elem_of_nil in Hx].
        apply (Hattrs _ _ _ E') in Hx. lia.
      * rewrite lookup_insert_ne in Hf by done.
        apply (Hattrs _ _ _ Hf) in Hx. lia.
  - intros k Hk. by apply (register_step_definition_other d).
Qed.

Lemma decorate_next_oid {Parserlike} (get_parser : Parserlike → StepParser)
    decorations f w w' f' :
  decorate get_parser decorations f w = Return (w', f') →
  (next_oid w ≤ next_oid w')%positive.
Proof.
  revert f w. induction decorations as [|[ty o] rest IH]; intros f w Hw'.
  - cbn in Hw'. injection Hw' as <- _. lia.
  - cbn [decorate decorator_builder snd] in Hw'.
    destruct (decorator get_parser ty o f w) as [[w2 f2]|e] eqn:E;
      [|discriminate].
    cbn [bind fst snd] in Hw'. apply IH in Hw'.
    apply decorator_effect in E as (_ & E & _). lia.
Qed.

(** X6.  Decorators stacked on a handler in a well-formed module all
    return the handler itself and leave the module well-formed; each adds
    one Definition of its own, for that handler and of the category it
    was built with, to the Registry of the module and to the attribute
    of the handler.  What was there before stays, and no other binding
    of the module is touched. *)
Theorem X6_stacked_decorators {Parserlike : Type}
    (get_parser : Parserlike → StepParser)
    (decorations : list (option StepType * Options))
    (step_func : string) (w : World) :
  World_wf w →
  ∃ w' built,
    decorate get_parser decorations step_func w = Return (w', step_func)
    ∧ World_wf w'
    ∧ stored (caller_locals w') = stored (caller_locals w) ++ built
    ∧ step_definitions_attr w' !! step_func =
      (if decide (decorations = []) then step_definitions_attr w !! step_func
       else Some (default [] (step_definitions_attr w !! step_func) ++ built))
    ∧ (∀ g, g ≠ step_func →
            step_definitions_attr w' !! g = step_definitions_attr w !! g)
    ∧ (∀ k, k ≠ "step_registry" →
            caller_locals w' !! k = caller_locals w !! k)
    ∧ type_ <$> built = fst <$> decorations
    ∧ Forall (λ d, func d = step_func) built
    ∧ NoDup (oid <$> built)
    ∧ Forall (λ d, (next_oid w ≤ oid d < next_oid w')%positive) built.
Proof.
  revert w. induction decorations as [|[step_type o] rest IH]; intros w Hwf.
  - exists w, []. cbn. rewrite app_nil_r.
    split; [done|]. split; [exact Hwf|]. split; [done|]. split; [done|].
    split; [done|]. split; [done|]. split; [done|].
    split; [constructor|]. split; constructor.
  - cbn [decorate decorator_builder snd].
    destruct (decorator_wf get_parser step_type o step_func w Hwf)
      as (w1 & Hw1 & Hwf1 & Hnext & Hst & Hattr & Hother).
    rewrite Hw1. cbn [bind fst snd].
    destruct (IH w1 Hwf1)
      as (w' & built & Hw' & Hwf' & Hst' & Hattr' & Hattr_other & Hother'
          & Hty & Hfunc & Hnodup & Hrange).
    set (d := build_definition get_parser step_type o step_func (next_oid w))
      in *.
    exists w', (d :: built). split; [exact Hw'|]. split; [exact Hwf'|].
    split; [by rewrite Hst', Hst, <- app_assoc|].
    split.
    { rewrite decide_False by done. rewrite Hattr'.
      rewrite Hattr, lookup_insert_eq. cbn.
      destruct (decide (rest = [])) as [->|Hne]; [|by rewrite <- app_assoc].
      cbn in Hty. apply fmap_nil_inv in Hty as ->. done. }
    split.
    { intros g Hg. rewrite (Hattr_other g Hg), Hattr.
      by rewrite lookup_insert_ne. }
    split; [intros k Hk; by rewrite (Hother' k Hk), (Hother k Hk)|].
    split; [cbn; by rewrite Hty|].
    split; [by constructor|].
    split.
    { cbn. apply NoDup_cons. split; [|done].
      intros (x & Hx & Hin)%list_elem_of_fmap.
      rewrite Forall_forall in Hrange. apply Hrange in Hin.
      rewrite Hnext in Hin. cbn in Hx. lia. }
    pose proof (decorate_next_oid _ _ _ _ _ _ Hw') as Hle.
    constructor.
    + cbn. lia.
    + eapply Forall_impl; [exact Hrange|]. cbn. intros x Hx. lia.
Qed.

(** The docstring's two names for one step: [article] decorated with
    [given("there is an article")] and then [given("I have an article")]
    in a module without registrations. *)
Lemma X6_stacked_decorators_witness :
  ∃ w' built,
    decorate exact_parser
      [(Some CONTEXT, default_options "there is an article");
       (Some CONTEXT, default_options "I have an article")]
      "article" empty_world = Return (w', "article")
    ∧ stored (caller_locals w') = built
    ∧ step_definitions_attr w' !! "article" = Some built
    ∧ length built = 2.
Proof.
  destruct (X6_stacked_decorators exact_parser
              [(Some CONTEXT, default_options "there is an article");
               (Some CONTEXT, default_options "I have an article")]
              "article" empty_world World_wf_empty)
    as (w' & built & Hw' & _ & Hst & Hattr & _ & _ & Hty & _).
  exists w', built. split; [exact Hw'|]. split; [exact Hst|].
  split; [exact Hattr|].
  rewrite <- (length_fmap type_), Hty. reflexivity.
Defined.

(** ** From registration to resolution *)

Lemma stored_module locals r :
  module_registry locals = Some r → stored locals = registry r.
Proof.
  unfold module_registry, stored.
  destruct (locals !! "step_registry") as [[r0|other]|]; [|done|done].
  by intros [= ->].
Qed.

Lemma decorator_module {Parserlike} (get_parser : Parserlike → StepParser)
    step_type o step_func w w' f :
  decorator get_parser step_type o step_func w = Return (w', f) →
  ∃ r, module_registry (caller_locals w') = Some r.
Proof.
  unfold decorator.
  destruct (register_step_definition _ (caller_locals w)) as [locals|e] eqn:E;
    [|discriminate].
  cbn. intros [= <- _]. cbn.
  destruct (register_step_definition_module _ _ _ E) as (r & Hr & _).
  eauto.
Qed.

(** A step whose context is the category of a Definition of the nearest
    Registry with a matching pattern is resolved at tier 1. *)
Lemma call_strict self0 f p s prev defs parent0 d :
  let reg := Some (mkRegistry defs parent0) in
  let self := Matcher.enter self0 f p s prev reg in
  d ∈ defs → type_ d = Matcher.step_type_context self →
  is_matching (parser d) (text s) = true →
  ∃ first others,
    hits (Matcher.strict_matcher self) defs = first :: others
    ∧ Matcher.call self0 f p s prev reg
      = (self,
         match others with
         | [] => []
         | _ :: _ => [AlternativeStepDefinitions (first :: others)]
         end,
         Return first).
Proof.
  intros reg self Hd Hty Hmatch.
  pose proof (enter_step self0 f p s prev reg) as Hs. fold self in Hs.
  pose proof (enter_tiers_total self0 f p s prev reg) as Htot.
  fold self in Htot. unfold Matcher.tiers in Htot.
  apply Forall_cons in Htot as [Hstrict _].
  assert (Hin : d ∈ hits (Matcher.strict_matcher self) defs).
  { apply hits_elem_of. split; [|done].
    rewrite (strict_matcher_bound self s d Hs), Hmatch.
    by rewrite bool_decide_eq_true_2. }
  destruct (hits (Matcher.strict_matcher self) defs) as [|first others] eqn:E;
    [by apply elem_of_nil in Hin|].
  exists first, others. split; [done|].
  rewrite call_outcome. cbv zeta. fold reg self.
  unfold reg at 1.
  rewrite (find_stop defs parent0 (Matcher.tiers self) (first :: others));
    [by destruct others | done |].
  unfold Matcher.tiers. rewrite scan_tiers_hit; [by rewrite E | done |].
  by rewrite E.
Qed.

(** A step some tier accepts a Definition of the nearest Registry for is
    resolved within that Registry. *)
Lemma call_nearest self0 f p s prev defs parent0 d m :
  let reg := Some (mkRegistry defs parent0) in
  let self := Matcher.enter self0 f p s prev reg in
  d ∈ defs → m ∈ Matcher.tiers self → m d = Return true →
  ∃ emitted d',
    Matcher.call self0 f p s prev reg = (self, emitted, Return d')
    ∧ d' ∈ defs
    ∧ is_matching (parser d') (text s) = true.
Proof.
  intros reg self Hd Hm Hmd.
  pose proof (enter_step self0 f p s prev reg) as Hs. fold self in Hs.
  pose proof (enter_tiers_total self0 f p s prev reg) as Htot.
  fold self in Htot.
  assert (Hne : (Matcher.scan_tiers (Matcher.tiers self) defs).1 ≠ []).
  { rewrite (scan_tiers_nil_iff _ _ Htot). intros Hall.
    assert (Hin : d ∈ hits m defs) by by apply hits_elem_of.
    rewrite (Hall m Hm) in Hin. by apply elem_of_nil in Hin. }
  destruct (scan_tiers_first _ _ Htot Hne)
    as (earlier & m0 & later & Hms & Heq & _).
  rewrite call_outcome. cbv zeta. fold reg self. unfold reg at 1.
  rewrite (find_fst_unfold defs parent0 _ Htot).
  destruct (Matcher.scan_tiers (Matcher.tiers self) defs).1
    as [|first others] eqn:E; [done|].
  assert (Hfirst : first ∈ hits m0 defs) by (rewrite <- Heq; by left).
  apply hits_elem_of in Hfirst as [Hacc Hin].
  assert (Hmatch : is_matching (parser first) (text s) = true).
  { apply (tiers_accept_matching self s m0 first Hs); [|done].
    rewrite Hms. apply elem_of_app. right. by left. }
  destruct others; eauto.
Qed.

(** X7.  A handler decorated with [given], [when] or [then] in a
    well-formed module serves the steps of that category: for every
    Matcher, a step of the category whose text the pattern of the
    decorator matches is resolved from the Registry of the module,
    whatever scope it is wired under, to a Definition of that category
    held there whose pattern matches.  When the module held no
    Definition before, it is the one just built, without warning. *)
Theorem X7_decorated_step_resolves {Parserlike : Type}
    (get_parser : Parserlike → StepParser)
    (decorator0 : Options →
                  list Warning * (string → World → result (World * string)))
    (category : StepType) (o : Options) (step_func : string) (w w' : World) :
  (decorator0 = given get_parser ∧ category = CONTEXT)
  ∨ (decorator0 = when get_parser ∧ category = ACTION)
  ∨ (decorator0 = then_ get_parser ∧ category = OUTCOME) →
  World_wf w →
  (decorator0 o).2 step_func w = Return (w', step_func) →
  ∃ r,
    module_registry (caller_locals w') = Some r
    ∧ ∀ self0 feature0 pickle0 step0 previous_step0 outer,
        type step0 = category →
        is_matching (get_parser (opt_parserlike o)) (text step0) = true →
        ∃ emitted d,
          Matcher.call self0 feature0 pickle0 step0 previous_step0
            (Some (fixture_call r outer))
          = (Matcher.enter self0 feature0 pickle0 step0 previous_step0
               (Some (fixture_call r outer)), emitted, Return d)
          ∧ d ∈ registry r
          ∧ type_ d = Some category
          ∧ is_matching (parser d) (text step0) = true
          ∧ (stored (caller_locals w) = [] →
             d = build_definition get_parser (Some category) o step_func
                   (next_oid w)
             ∧ emitted = []).
Proof.
  intros Hdeco Hwf Hrun.
  assert (Hdecorator :
    decorator get_parser (Some category) o step_func w = Return (w', step_func)
    ∧ (category = CONTEXT ∨ category = ACTION ∨ category = OUTCOME)).
  { destruct Hdeco as [[-> ->]|[[-> ->]|[-> ->]]]; split; auto. }
  destruct Hdecorator as [Hdecorator Hcategory]. clear Hdeco Hrun.
  destruct (decorator_module _ _ _ _ _ _ _ Hdecorator) as [r Hr].
  exists r. split; [exact Hr|].
  destruct (decorator_wf get_parser (Some category) o step_func w Hwf)
    as (w1 & Hw1 & _ & _ & Hst & _).
  rewrite Hdecorator in Hw1. injection Hw1 as <-.
  rewrite (stored_module _ _ Hr) in Hst.
  set (built := build_definition get_parser (Some category) o step_func
                  (next_oid w)) in *.
  intros self0 feature0 pickle0 step0 previous_step0 outer Hty Hmatch.
  unfold fixture_call.
  set (reg := Some (mkRegistry (registry r) outer)).
  set (self := Matcher.enter self0 feature0 pickle0 step0 previous_step0 reg).
  assert (Hctx : Matcher.step_type_context self = Some category).
  { unfold self. rewrite enter_context, Hty.
    destruct Hcategory as [-> | [-> | ->]];
      by destruct (Matcher.step_type_context self0). }
  destruct (call_strict self0 feature0 pickle0 step0 previous_step0
              (registry r) outer built)
    as (first & others & Hhits & Hcall).
  { rewrite Hst. apply elem_of_app. right. by left. }
  { fold reg self. by rewrite Hctx. }
  { exact Hmatch. }
  fold reg self in Hhits, Hcall.
  assert (Hfirst : first ∈ hits (Matcher.strict_matcher self) (registry r))
    by (rewrite Hhits; by left).
  apply hits_elem_of in Hfirst as [Hacc Hin].
  rewrite (strict_matcher_bound self step0 first (enter_step _ _ _ _ _ _))
    in Hacc.
  injection Hacc as Hacc. apply andb_true_iff in Hacc as [Hty' Hmatch'].
  apply bool_decide_eq_true in Hty'. rewrite Hctx in Hty'.
  eexists _, first. split; [exact Hcall|].
  split; [done|]. split; [done|]. split; [done|].
  intros Hempty. rewrite Hempty in Hst. cbn in Hst.
  rewrite Hst in Hhits. rewrite hits_singleton in Hhits.
  destruct (decide _); [|discriminate]. by injection Hhits as <- <-.
Qed.

(** [given("foo")] on a handler in a module without registrations,
    then "Given foo" from the Registry of the module. *)
Lemma X7_decorated_step_resolves_witness :
  ∃ w' r emitted d,
    (given exact_parser (default_options "foo")).2 "given_foo" empty_world
    = Return (w', "given_foo")
    ∧ module_registry (caller_locals w') = Some r
    ∧ Matcher.call (Matcher.new example_config) example_feature
        example_scenario (mkStep CONTEXT "foo" "foo") None
        (Some (fixture_call r (Some example_parent)))
      = (Matcher.enter (Matcher.new example_config) example_feature
           example_scenario (mkStep CONTEXT "foo" "foo") None
           (Some (fixture_call r (Some example_parent))),
         emitted, Return d)
    ∧ func d = "given_foo" ∧ emitted = [].
Proof.
  destruct (decorator_wf exact_parser (Some CONTEXT) (default_options "foo")
              "given_foo" empty_world World_wf_empty) as (w' & Hw' & _).
  destruct (X7_decorated_step_resolves exact_parser (given exact_parser)
              CONTEXT (default_options "foo") "given_foo" empty_world w'
              (or_introl (conj eq_refl eq_refl)) World_wf_empty Hw')
    as (r & Hr & Hresolve).
  destruct (Hresolve (Matcher.new example_config) example_feature
              example_scenario (mkStep CONTEXT "foo" "foo") None
              (Some example_parent) eq_refl eq_refl)
    as (emitted & d & Hcall & _ & _ & _ & Hfresh).
  destruct (Hfresh eq_refl) as [-> ->].
  exists w', r, []. eexists. split; [exact Hw'|]. split; [exact Hr|].
  split; [exact Hcall|]. by split.
Defined.

(** X8.  A handler decorated with [step] in a well-formed module: when
    the liberal flag given is true, a step of any category, in any
    context, whose text the pattern matches is resolved from the
    Registry of the module; otherwise so is a step whose context is
    UNKNOWN, and then to a Definition of category UNKNOWN.  Either way
    the Definition returned is held by that Registry and its pattern
    matches. *)
Theorem X8_step_decorator_resolves {Parserlike : Type}
    (get_parser : Parserlike → StepParser)
    (o : Options) (step_func : string) (w w' : World) :
  World_wf w →
  (step get_parser o).2 step_func w = Return (w', step_func) →
  ∃ r,
    module_registry (caller_locals w') = Some r
    ∧ ∀ self0 feature0 pickle0 step0 previous_step0 outer,
        let reg := Some (fixture_call r outer) in
        let self := Matcher.enter self0 feature0 pickle0 step0
                      previous_step0 reg in
        is_matching (get_parser (opt_parserlike o)) (text step0) = true →
        (opt_liberal o = Some true →
         ∃ emitted d,
           Matcher.call self0 feature0 pickle0 step0 previous_step0 reg
           = (self, emitted, Return d)
           ∧ d ∈ registry r
           ∧ is_matching (parser d) (text step0) = true)
        ∧ (opt_liberal o ≠ Some true →
           Matcher.step_type_context self = Some UNKNOWN →
           ∃ emitted d,
             Matcher.call self0 feature0 pickle0 step0 previous_step0 reg
             = (self, emitted, Return d)
             ∧ d ∈ registry r
             ∧ type_ d = Some UNKNOWN
             ∧ is_matching (parser d) (text step0) = true).
Proof.
  intros Hwf Hrun. unfold step in Hrun. cbn [decorator_builder snd] in Hrun.
  set (category := match opt_liberal o with
                   | Some true => UNSPECIFIED
                   | _ => UNKNOWN
                   end) in *.
  destruct (decorator_module _ _ _ _ _ _ _ Hrun) as [r Hr].
  exists r. split; [exact Hr|].
  destruct (decorator_wf get_parser (Some category) o step_func w Hwf)
    as (w1 & Hw1 & _ & _ & Hst & _).
  rewrite Hrun in Hw1. injection Hw1 as <-.
  rewrite (stored_module _ _ Hr) in Hst.
  set (built := build_definition get_parser (Some category) o step_func
                  (next_oid w)) in *.
  assert (Hbuilt : built ∈ registry r).
  { rewrite Hst. apply elem_of_app. right. by left. }
  intros self0 feature0 pickle0 step0 previous_step0 outer reg self Hmatch.
  unfold reg, fixture_call in *.
  pose proof (enter_step self0 feature0 pickle0 step0 previous_step0
                (Some (mkRegistry (registry r) outer))) as Hs.
  fold self in Hs. split.
  - intros Hlib.
    apply (call_nearest self0 feature0 pickle0 step0 previous_step0
             (registry r) outer built (Matcher.unspecified_matcher self));
      [done | right; by left |].
    assert (Hty : type_ built = Some UNSPECIFIED).
    { unfold built, category. by rewrite Hlib. }
    rewrite (unspecified_matcher_bound self step0 built Hs).
    rewrite (bool_decide_eq_true_2 _ Hty), orb_true_r.
    change (parser built) with (get_parser (opt_parserlike o)).
    by rewrite Hmatch.
  - intros Hlib Hctx.
    assert (Hcat : category = UNKNOWN).
    { unfold category. by destruct (opt_liberal o) as [[]|]. }
    destruct (call_strict self0 feature0 pickle0 step0 previous_step0
                (registry r) outer built)
      as (first & others & Hhits & Hcall).
    { done. }
    { fold self. rewrite Hctx. cbn. by rewrite Hcat. }
    { exact Hmatch. }
    fold self in Hhits, Hcall.
    assert (Hfirst : first ∈ hits (Matcher.strict_matcher self) (registry r))
      by (rewrite Hhits; by left).
    apply hits_elem_of in Hfirst as [Hacc Hin].
    rewrite (strict_matcher_bound self step0 first Hs) in Hacc.
    injection Hacc as Hacc. apply andb_true_iff in Hacc as [Hty' Hmatch'].
    apply bool_decide_eq_true in Hty'. rewrite Hctx in Hty'.
    eexists _, first. by split.
Qed.

(** [step("foo", liberal=True)] serves "Then foo", and [step("foo")] a
    first "And foo", which a new Matcher takes in context UNKNOWN. *)
Lemma X8_step_decorator_resolves_witness :
  (∃ w' r emitted d,
     (step exact_parser
        (mkOptions "foo" None None None (PFM_bool true) None (Some true))).2
       "any_foo" empty_world = Return (w', "any_foo")
     ∧ module_registry (caller_locals w') = Some r
     ∧ Matcher.call (Matcher.new example_config) example_feature
         example_scenario (mkStep OUTCOME "foo" "foo") None
         (Some (fixture_call r None))
       = (Matcher.enter (Matcher.new example_config) example_feature
            example_scenario (mkStep OUTCOME "foo" "foo") None
            (Some (fixture_call r None)), emitted, Return d))
  ∧ (∃ w' r emitted d,
       (step exact_parser (default_options "foo")).2 "any_foo" empty_world
       = Return (w', "any_foo")
       ∧ module_registry (caller_locals w') = Some r
       ∧ Matcher.call (Matcher.new example_config) example_feature
           example_scenario (mkStep CONJUNCTION "foo" "foo") None
           (Some (fixture_call r None))
         = (Matcher.enter (Matcher.new example_config) example_feature
              example_scenario (mkStep CONJUNCTION "foo" "foo") None
              (Some (fixture_call r None)), emitted, Return d)).
Proof.
  split.
  - destruct (decorator_wf exact_parser (Some UNSPECIFIED)
                (mkOptions "foo" None None None (PFM_bool true) None
                   (Some true))
                "any_foo" empty_world World_wf_empty) as (w' & Hw' & _).
    destruct (X8_step_decorator_resolves exact_parser
                (mkOptions "foo" None None None (PFM_bool true) None
                   (Some true))
                "any_foo" empty_world w' World_wf_empty Hw')
      as (r & Hr & Hresolve).
    destruct (proj1 (Hresolve (Matcher.new example_config) example_feature
                       example_scenario (mkStep OUTCOME "foo" "foo") None None
                       eq_refl) eq_refl)
      as (emitted & d & Hcall & _).
    by exists w', r, emitted, d.
  - destruct (decorator_wf exact_parser (Some UNKNOWN) (default_options "foo")
                "any_foo" empty_world World_wf_empty) as (w' & Hw' & _).
    destruct (X8_step_decorator_resolves exact_parser (default_options "foo")
                "any_foo" empty_world w' World_wf_empty Hw')
      as (r & Hr & Hresolve).
    destruct (proj2 (Hresolve (Matcher.new example_config) example_feature
                       example_scenario (mkStep CONJUNCTION "foo" "foo") None
                       None eq_refl))
      as (emitted & d & Hcall & _); [discriminate | reflexivity |].
    by exists w', r, emitted, d.
Defined.

(** ** Registering the Definitions of handlers in another scope *)

Lemma held_set_add s d x : held (set_add s d) x ↔ held s x ∨ oid d = oid x.
Proof.
  unfold held, set_add. destruct (existsb _ s) eqn:E.
  - split; [by left|]. intros [H|H]; [done|].
    apply existsb_exists in E as (y & Hy & Heq).
    unfold StepDefinition_eqb in Heq. apply bool_decide_eq_true in Heq.
    exists y. split; [by apply list_elem_of_In | congruence].
  - split.
    + intros (y & [Hy| ->%list_elem_of_singleton]%elem_of_app & Heq);
        [left; eauto | by right].
    + intros [(y & Hy & Heq)|Heq].
      * exists y. split; [apply elem_of_app; by left | done].
      * exists d. split; [apply elem_of_app; right; by left | done].
Qed.

Lemma set_add_keeps s d x : x ∈ s → x ∈ set_add s d.
Proof.
  unfold set_add. destruct (existsb _ s); [done|].
  intros Hx. apply elem_of_app. by left.
Qed.

Lemma register_step_definition_held_same d locals r :
  module_registry locals = Some r → held (registry r) d →
  register_step_definition d locals = Return locals.
Proof.
  unfold module_registry, register_step_definition,
    setdefault_step_registry_fixture.
  destruct (locals !! "step_registry") as [[r0|other]|] eqn:E; [|done|done].
  intros [= ->] (x & Hx & Heq). rewrite E.
  rewrite (set_add_known _ _ x Hx Heq).
  f_equal. apply insert_id. rewrite E. by destruct r.
Qed.

Lemma register_each_nil locals : register_each [] locals = Return locals.
Proof. reflexivity. Qed.

Lemma register_each_cons d ds locals :
  register_each (d :: ds) locals =
  match register_step_definition d locals with
  | Return locals' => register_each ds locals'
  | Raise e => Raise e
  end.
Proof. reflexivity. Qed.

Lemma register_step_definition_raises d locals e :
  register_step_definition d locals = Raise e →
  e = AttributeError ∧ ¬ registrable locals.
Proof.
  unfold register_step_definition, setdefault_step_registry_fixture,
    registrable.
  destruct (locals !! "step_registry") as [[r|other]|] eqn:E.
  - rewrite E. discriminate.
  - rewrite E. intros [= <-]. tauto.
  - rewrite lookup_insert_eq. discriminate.
Qed.

(** What registering a list of Definitions does to a scope that can
    take registrations. *)
Lemma register_each_spec ds locals :
  registrable locals →
  ∃ locals',
    register_each ds locals = Return locals'
    ∧ registrable locals'
    ∧ (∀ x, held (stored locals') x ↔
            held (stored locals) x ∨ ∃ d, d ∈ ds ∧ oid d = oid x)
    ∧ (∀ x, x ∈ stored locals → x ∈ stored locals')
    ∧ (∀ x, x ∈ stored locals' → x ∈ stored locals ∨ x ∈ ds)
    ∧ (∀ k, k ≠ "step_registry" → locals' !! k = locals !! k)
    ∧ (is_Some (module_registry locals) → is_Some (module_registry locals'))
    ∧ (ds ≠ [] → is_Some (module_registry locals')).
Proof.
  revert locals. induction ds as [|d ds IH]; intros locals Hreg.
  - exists locals. split; [done|]. split; [done|]. split.
    { intros x. split; [by left|]. intros [H|(d & Hd & _)]; [done|].
      by apply elem_of_nil in Hd. }
    split; [done|]. split; [by left|]. split; [done|]. split; done.
  - rewrite register_each_cons.
    destruct (register_step_definition_returns d locals Hreg) as [l1 H1].
    rewrite H1.
    pose proof (registered_registrable _ _ _ H1) as Hreg1.
    pose proof (register_step_definition_stored _ _ _ H1) as Hst1.
    destruct (IH l1 Hreg1)
      as (l2 & H2 & Hreg2 & Hheld & Hkeep & Hfrom & Hother & Hpres & _).
    assert (Hmod1 : is_Some (module_registry l1)).
    { destruct (register_step_definition_module _ _ _ H1) as (r & -> & _).
      eauto. }
    exists l2. split; [exact H2|]. split; [exact Hreg2|]. split.
    { intros x. rewrite Hheld, Hst1, held_set_add. split.
      - intros [[H|H]|(d' & Hd' & Heq)]; [by left| |].
        + right. exists d. split; [by left | done].
        + right. exists d'. split; [by right | done].
      - intros [H|(d' & [->|Hd']%elem_of_cons & Heq)].
        + left. by left.
        + left. by right.
        + right. eauto. }
    split.
    { intros x Hx. apply Hkeep. rewrite Hst1. by apply set_add_keeps. }
    split.
    { intros x Hx. apply Hfrom in Hx as [Hx|Hx]; [|right; by right].
      rewrite Hst1 in Hx. apply set_add_elem_of in Hx as [Hx| ->];
        [by left | right; by left]. }
    split.
    { intros k Hk. rewrite (Hother k Hk).
      by apply (register_step_definition_other d). }
    split; intros _; by apply Hpres.
Qed.

(** Registering Definitions a scope already holds leaves it as it is. *)
Lemma register_each_held ds locals r :
  module_registry locals = Some r →
  (∀ d, d ∈ ds → held (registry r) d) →
  register_each ds locals = Return locals.
Proof.
  intros Hr Hall. induction ds as [|d ds IH]; [done|].
  rewrite register_each_cons.
  rewrite (register_step_definition_held_same d locals r Hr)
    by (apply Hall; by left).
  apply IH. intros d' Hd'. apply Hall. by right.
Qed.

Lemma register_each_raises ds locals e :
  register_each ds locals = Raise e → e = AttributeError.
Proof.
  revert locals. induction ds as [|d ds IH]; intros locals; [done|].
  rewrite register_each_cons.
  destruct (register_step_definition d locals) as [l1|e1] eqn:E.
  - apply IH.
  - intros [= <-]. by apply register_step_definition_raises in E as [? _].
Qed.

Lemma register_steps_raises attrs fs locals e :
  register_steps attrs fs locals = Raise e → e = AttributeError.
Proof.
  revert locals. induction fs as [|f fs IH]; intros locals; [done|].
  cbn [register_steps]. destruct (attrs !! f) as [ds|]; [|by intros [= <-]].
  destruct (register_each ds locals) as [l1|e1] eqn:E; cbn [bind].
  - apply IH.
  - intros [= <-]. by apply register_each_raises in E.
Qed.

Lemma register_steps_spec attrs fs locals :
  registrable locals → (∀ f, f ∈ fs → is_Some (attrs !! f)) →
  ∃ locals',
    register_steps attrs fs locals = Return locals'
    ∧ registrable locals'
    ∧ (∀ x, held (stored locals') x ↔
            held (stored locals) x
            ∨ ∃ d, definitions_of attrs fs d ∧ oid d = oid x)
    ∧ (∀ x, x ∈ stored locals → x ∈ stored locals')
    ∧ (∀ x, x ∈ stored locals' →
            x ∈ stored locals ∨ definitions_of attrs fs x)
    ∧ (∀ k, k ≠ "step_registry" → locals' !! k = locals !! k)
    ∧ (is_Some (module_registry locals) → is_Some (module_registry locals'))
    ∧ ((∃ d, definitions_of attrs fs d) → is_Some (module_registry locals')).
Proof.
  revert locals. induction fs as [|f fs IH]; intros locals Hreg Hattrs.
  - exists locals. split; [done|]. split; [done|]. split.
    { intros x. split; [by left|].
      intros [H|(d & (f & ds & Hf & _) & _)]; [done|].
      by apply elem_of_nil in Hf. }
    split; [done|]. split; [by left|]. split; [done|]. split; [done|].
    intros (d & f & ds & Hf & _). by apply elem_of_nil in Hf.
  - cbn [register_steps].
    destruct (Hattrs f) as [ds Hds]; [by left|]. rewrite Hds.
    destruct (register_each_spec ds locals Hreg)
      as (l1 & H1 & Hreg1 & Hheld1 & Hkeep1 & Hfrom1 & Hother1 & Hpres1
          & Hmod1).
    rewrite H1. cbn [bind].
    destruct (IH l1 Hreg1)
      as (l2 & H2 & Hreg2 & Hheld2 & Hkeep2 & Hfrom2 & Hother2 & Hpres2
          & Hmod2).
    { intros g Hg. apply Hattrs. by right. }
    exists l2. split; [exact H2|]. split; [exact Hreg2|]. split.
    { intros x. rewrite Hheld2, Hheld1. split.
      - intros [[H|(d & Hd & Heq)]|(d & (g & ds' & Hg & Hds' & Hd) & Heq)].
        + by left.
        + right. exists d. split; [|done]. exists f, ds.
          split; [by left | done].
        + right. exists d. split; [|done]. exists g, ds'.
          split; [by right | done].
      - intros [H|(d & (g & ds' & [->|Hg]%elem_of_cons & Hds' & Hd) & Heq)].
        + left. by left.
        + left. right. exists d. rewrite Hds in Hds'.
          injection Hds' as <-. done.
        + right. exists d. split; [|done]. by exists g, ds'. }
    split; [intros x Hx; by apply Hkeep2, Hkeep1|].
    split.
    { intros x Hx. apply Hfrom2 in Hx as [Hx|(g & ds' & Hg & Hds' & Hd)].
      - apply Hfrom1 in Hx as [Hx|Hx]; [by left|].
        right. exists f, ds. split; [by left | done].
      - right. exists g, ds'. split; [by right | done]. }
    split; [intros k Hk; by rewrite (Hother2 k Hk), (Hother1 k Hk)|].
    split; [intros H; by apply Hpres2, Hpres1|].
    intros (d & g & ds' & [->|Hg]%elem_of_cons & Hds' & Hd).
    + rewrite Hds in Hds'. injection Hds' as <-.
      apply Hpres2, Hmod1. intros ->. by apply elem_of_nil in Hd.
    + apply Hmod2. exists d, g, ds'. done.
Qed.

Lemma register_steps_missing attrs fs locals f :
  f ∈ fs → attrs !! f = None →
  register_steps attrs fs locals = Raise AttributeError.
Proof.
  intros Hf Hnone. revert locals.
  induction fs as [|g fs IH]; intros locals; [by apply elem_of_nil in Hf|].
  cbn [register_steps].
  destruct (attrs !! g) as [ds|] eqn:Hg; [|done].
  destruct (register_each ds locals) as [l1|e] eqn:E; cbn [bind].
  - apply elem_of_cons in Hf as [->|Hf]; [congruence | by apply IH].
  - by apply register_each_raises in E as ->.
Qed.

Global Instance registrable_dec locals : Decision (registrable locals).
Proof.
  unfold registrable.
  destruct (locals !! "step_registry") as [[r|other]|];
    [left | right | left]; tauto.
Defined.

(** X9.  [register_steps] on a scope that can take registrations, for
    handlers that all carry Definitions, returns; afterwards the scope
    holds, as the same objects, exactly what it held before and the
    Definitions of those handlers, nothing it held is gone, and no other
    binding has changed.  It raises only AttributeError, and only if a
    handler carries no Definitions attribute or the scope binds
    [step_registry] to something that is no Registry fixture; a handler
    without the attribute always makes it raise. *)
Theorem X9_register_steps
    (attrs : gmap string (list StepDefinition)) (step_funcs : list string)
    (locals : gmap string LocalObj) :
  (registrable locals → (∀ f, f ∈ step_funcs → is_Some (attrs !! f)) →
   ∃ locals',
     register_steps attrs step_funcs locals = Return locals'
     ∧ (∀ x, held (stored locals') x ↔
             held (stored locals) x
             ∨ ∃ d, definitions_of attrs step_funcs d ∧ oid d = oid x)
     ∧ (∀ x, x ∈ stored locals → x ∈ stored locals')
     ∧ (∀ x, x ∈ stored locals' →
             x ∈ stored locals ∨ definitions_of attrs step_funcs x)
     ∧ (∀ k, k ≠ "step_registry" → locals' !! k = locals !! k))
  ∧ (∀ f, f ∈ step_funcs → attrs !! f = None →
          register_steps attrs step_funcs locals = Raise AttributeError)
  ∧ (∀ e, register_steps attrs step_funcs locals = Raise e →
          e = AttributeError
          ∧ ((∃ f, f ∈ step_funcs ∧ attrs !! f = None)
             ∨ ¬ registrable locals)).
Proof.
  split; [|split].
  - intros Hreg Hattrs.
    destruct (register_steps_spec attrs step_funcs locals Hreg Hattrs)
      as (l' & Hl' & _ & Hheld & Hkeep & Hfrom & Hother & _).
    by exists l'.
  - intros f. apply register_steps_missing.
  - intros e He. split; [by apply register_steps_raises in He|].
    destruct (decide (registrable locals)) as [Hreg|Hreg]; [|by right].
    left.
    destruct (decide (Forall (λ f, is_Some (attrs !! f)) step_funcs))
      as [Hall|Hnot].
    + rewrite Forall_forall in Hall.
      destruct (register_steps_spec attrs step_funcs locals Hreg Hall)
        as (l' & Hl' & _).
      congruence.
    + apply not_Forall_Exists in Hnot; [|apply _].
      apply Exists_exists in Hnot as (f & Hf & Hnone).
      exists f. split; [done|]. by apply eq_None_not_Some.
Qed.

(** The Definitions of [given_foo] and [when_foo] registered in a scope
    of their own. *)
Lemma X9_register_steps_witness :
  ∃ locals',
    register_steps example_attrs ["given_foo"; "when_foo"] ∅ = Return locals'
    ∧ (held (stored locals') given_foo ∧ held (stored locals') when_foo_liberal)
    ∧ register_steps example_attrs ["given_foo"; "helper"] ∅
      = Raise AttributeError.
Proof.
  destruct (proj1 (X9_register_steps example_attrs ["given_foo"; "when_foo"] ∅)
              registrable_empty)
    as (l' & Hl' & Hheld & _).
  { intros f Hf. rewrite !elem_of_cons in Hf.
    destruct Hf as [->|[->|Hf]]; [by eexists | by eexists |].
    by apply elem_of_nil in Hf. }
  exists l'. split; [exact Hl'|]. split.
  - split; apply Hheld; right.
    + exists given_foo. split; [|done].
      exists "given_foo", [given_foo]. split; [by left|].
      split; [done | by left].
    + exists when_foo_liberal. split; [|done].
      exists "when_foo", [when_foo_liberal]. split; [right; by left|].
      split; [done | by left].
  - apply (proj1 (proj2 (X9_register_steps example_attrs
                           ["given_foo"; "helper"] ∅)) "helper");
      [right; by left | done].
Defined.

Lemma held_mono s s' d : (∀ x, x ∈ s → x ∈ s') → held s d → held s' d.
Proof. intros Hsub (x & Hx & Heq). exists x. auto. Qed.

Lemma register_each_done ds locals locals' :
  register_each ds locals = Return locals' →
  (∀ x, x ∈ stored locals → x ∈ stored locals')
  ∧ (is_Some (module_registry locals) → is_Some (module_registry locals'))
  ∧ ∀ d, d ∈ ds →
         is_Some (module_registry locals') ∧ held (stored locals') d.
Proof.
  revert locals. induction ds as [|d ds IH]; intros locals.
  - intros [= <-]. split; [done|]. split; [done|].
    by intros d ?%elem_of_nil.
  - rewrite register_each_cons.
    destruct (register_step_definition d locals) as [l1|e] eqn:E;
      [|discriminate].
    intros Hrest. destruct (IH l1 Hrest) as (Hkeep & Hpres & Hall).
    pose proof (register_step_definition_stored _ _ _ E) as Hst.
    assert (Hmod1 : is_Some (module_registry l1)).
    { destruct (register_step_definition_module _ _ _ E) as (r & -> & _).
      eauto. }
    split.
    { intros x Hx. apply Hkeep. rewrite Hst. by apply set_add_keeps. }
    split; [intros _; by apply Hpres|].
    intros d' [->|Hd']%elem_of_cons; [|by apply Hall].
    split; [by apply Hpres|].
    apply (held_mono (stored l1)); [done|].
    rewrite Hst. apply held_set_add. by right.
Qed.

Lemma register_steps_done attrs fs locals locals' :
  register_steps attrs fs locals = Return locals' →
  (∀ f, f ∈ fs → is_Some (attrs !! f))
  ∧ (∀ x, x ∈ stored locals → x ∈ stored locals')
  ∧ (is_Some (module_registry locals) → is_Some (module_registry locals'))
  ∧ ∀ d, definitions_of attrs fs d →
         is_Some (module_registry locals') ∧ held (stored locals') d.
Proof.
  revert locals. induction fs as [|f fs IH]; intros locals.
  - intros [= <-]. split; [by intros f ?%elem_of_nil|]. split; [done|].
    split; [done|]. intros d (f & ds & Hf & _). by apply elem_of_nil in Hf.
  - cbn [register_steps].
    destruct (attrs !! f) as [ds|] eqn:Hds; [|discriminate].
    destruct (register_each ds locals) as [l1|e] eqn:E; [|discriminate].
    cbn [bind]. intros Hrest.
    destruct (register_each_done _ _ _ E) as (Hkeep1 & Hpres1 & Hall1).
    destruct (IH l1 Hrest) as (Hattrs & Hkeep & Hpres & Hall).
    split.
    { intros g [->|Hg]%elem_of_cons; [by rewrite Hds | by apply Hattrs]. }
    split; [intros x Hx; by apply Hkeep, Hkeep1|].
    split; [intros H; by apply Hpres, Hpres1|].
    intros d (g & ds' & [->|Hg]%elem_of_cons & Hds' & Hd).
    + rewrite Hds in Hds'. injection Hds' as <-.
      destruct (Hall1 d Hd) as [Hmod Hheld].
      split; [by apply Hpres|]. by apply (held_mono (stored l1)).
    + apply Hall. by exists g, ds'.
Qed.

Lemma register_steps_held attrs fs locals :
  (∀ f, f ∈ fs → is_Some (attrs !! f)) →
  (∀ d, definitions_of attrs fs d →
        is_Some (module_registry locals) ∧ held (stored locals) d) →
  register_steps attrs fs locals = Return locals.
Proof.
  induction fs as [|f fs IH]; intros Hattrs Hall; [done|].
  cbn [register_steps]. destruct (Hattrs f) as [ds Hds]; [by left|].
  rewrite Hds.
  assert (Heach : register_each ds locals = Return locals).
  { destruct ds as [|d ds']; [done|].
    destruct (Hall d) as [[r Hr] _].
    { exists f, (d :: ds'). split; [by left|]. split; [done | by left]. }
    apply (register_each_held _ _ r Hr). intros d' Hd'.
    rewrite <- (stored_module _ _ Hr). apply Hall.
    exists f, (d :: ds'). split; [by left | done]. }
  rewrite Heach. cbn [bind]. apply IH.
  - intros g Hg. apply Hattrs. by right.
  - intros d (g & ds' & Hg & Hds' & Hd). apply Hall.
    exists g, ds'. split; [by right | done].
Qed.

(** X10.  Registering the same handlers again in the scope they were
    registered in changes nothing: the second [register_steps] returns
    the scope as the first left it.  More generally, it leaves a scope
    untouched when the scope already holds every Definition of the
    handlers. *)
Theorem X10_register_steps_again
    (attrs : gmap string (list StepDefinition)) (step_funcs : list string)
    (locals locals1 : gmap string LocalObj) :
  register_steps attrs step_funcs locals = Return locals1 →
  register_steps attrs step_funcs locals1 = Return locals1
  ∧ ∀ step_funcs',
      (∀ f, f ∈ step_funcs' → f ∈ step_funcs) →
      register_steps attrs step_funcs' locals1 = Return locals1.
Proof.
  intros Hfirst.
  destruct (register_steps_done _ _ _ _ Hfirst) as (Hattrs & _ & _ & Hall).
  assert (Hsub : ∀ step_funcs',
    (∀ f, f ∈ step_funcs' → f ∈ step_funcs) →
    register_steps attrs step_funcs' locals1 = Return locals1).
  { intros fs' Hfs'. apply register_steps_held.
    - intros f Hf. by apply Hattrs, Hfs'.
    - intros d (f & ds & Hf & Hds & Hd). apply Hall.
      exists f, ds. split; [by apply Hfs' | done]. }
  split; [by apply Hsub | exact Hsub].
Qed.

(** [given_foo] and [when_foo] registered twice over. *)
Lemma X10_register_steps_again_witness :
  ∃ locals1,
    register_steps example_attrs ["given_foo"; "when_foo"] ∅ = Return locals1
    ∧ register_steps example_attrs ["given_foo"; "when_foo"] locals1
      = Return locals1
    ∧ length (stored locals1) = 2.
Proof.
  destruct (register_steps_spec example_attrs ["given_foo"; "when_foo"] ∅
              registrable_empty) as (l1 & Hl1 & _).
  { intros f Hf. rewrite !elem_of_cons in Hf.
    destruct Hf as [->|[->|Hf]]; [by eexists | by eexists |].
    by apply elem_of_nil in Hf. }
  exists l1. split; [exact Hl1|].
  split; [exact (proj1 (X10_register_steps_again _ _ _ _ Hl1))|].
  assert (Hc : match register_steps example_attrs ["given_foo"; "when_foo"] ∅
               with
               | Return l => length (stored l) = 2
               | Raise _ => False
               end) by (vm_compute; reflexivity).
  by rewrite Hl1 in Hc.
Defined.

(** ** Registering what a module binds *)

Lemma registrable_steps_elem_of attrs locals steps f :
  f ∈ registrable_steps attrs locals steps ↔
  ∃ binding,
    locals !! binding = Some (OtherObject f)
    ∧ is_Some (attrs !! f)
    ∧ selected steps binding f = true.
Proof.
  unfold registrable_steps. rewrite list_elem_of_omap. split.
  - intros ([binding obj] & Hin & Hsel).
    apply elem_of_map_to_list in Hin. cbn in Hsel.
    destruct obj as [r|g]; cbn in Hsel; [done|].
    case_bool_decide as Hattr; [|done].
    destruct (selected steps binding g) eqn:Hs; [|done].
    injection Hsel as ->. by exists binding.
  - intros (binding & Hb & Hattr & Hs).
    exists (binding, OtherObject f). split; [by apply elem_of_map_to_list|].
    cbn. rewrite bool_decide_eq_true_2 by done. by rewrite Hs.
Qed.

Lemma definitions_of_registrable_steps attrs locals steps d :
  definitions_of attrs (registrable_steps attrs locals steps) d ↔
  selected_definitions attrs locals steps d.
Proof.
  unfold definitions_of, selected_definitions. split.
  - intros (f & ds & Hf & Hds & Hd).
    apply registrable_steps_elem_of in Hf as (binding & Hb & _ & Hs).
    by exists binding, f, ds.
  - intros (binding & f & ds & Hb & Hds & Hs & Hd).
    exists f, ds. split; [|done].
    apply registrable_steps_elem_of. exists binding. by rewrite Hds.
Qed.

(** X11.  [register_steps_from_locals] on a module whose scope can take
    registrations returns; afterwards the scope holds, as the same
    objects, exactly what it held before and the Definitions of the
    decorated handlers the module binds and [steps] selects (all of
    them when [steps] is None; by the name bound or by the handler
    otherwise).  Nothing held is gone, objects without the attribute
    are passed over, no other binding changes, and a second call finds
    nothing left to do. *)
Theorem X11_register_steps_from_locals
    (attrs : gmap string (list StepDefinition))
    (locals : gmap string LocalObj) (steps : option (list StepsEntry)) :
  registrable locals →
  ∃ locals',
    register_steps_from_locals attrs locals steps = Return locals'
    ∧ (∀ x, held (stored locals') x ↔
            held (stored locals) x
            ∨ ∃ d, selected_definitions attrs locals steps d ∧ oid d = oid x)
    ∧ (∀ x, x ∈ stored locals → x ∈ stored locals')
    ∧ (∀ x, x ∈ stored locals' →
            x ∈ stored locals ∨ selected_definitions attrs locals steps x)
    ∧ (∀ k, k ≠ "step_registry" → locals' !! k = locals !! k)
    ∧ register_steps_from_locals attrs locals' steps = Return locals'.
Proof.
  intros Hreg. unfold register_steps_from_locals.
  destruct (register_steps_spec attrs (registrable_steps attrs locals steps)
              locals Hreg)
    as (l' & Hl' & Hreg' & Hheld & Hkeep & Hfrom & Hother & _).
  { intros f (binding & _ & Hattr & _)%registrable_steps_elem_of. done. }
  exists l'. split; [exact Hl'|]. split.
  { intros x. rewrite Hheld. split.
    - intros [H|(d & Hd & Heq)]; [by left|]. right. exists d.
      split; [by apply definitions_of_registrable_steps | done].
    - intros [H|(d & Hd & Heq)]; [by left|]. right. exists d.
      split; [by apply definitions_of_registrable_steps | done]. }
  split; [exact Hkeep|]. split.
  { intros x Hx. apply Hfrom in Hx as [Hx|Hx]; [by left|].
    right. by apply definitions_of_registrable_steps. }
  split; [exact Hother|].
  destruct (register_steps_done _ _ _ _ Hl') as (Hattrs & _ & _ & Hall).
  assert (Hsame : ∀ f, f ∈ registrable_steps attrs l' steps →
                       f ∈ registrable_steps attrs locals steps).
  { intros f (binding & Hb & Hattr & Hs)%registrable_steps_elem_of.
    apply registrable_steps_elem_of. exists binding. split; [|done].
    rewrite <- Hother; [done|]. intros ->.
    unfold registrable in Hreg'. by rewrite Hb in Hreg'. }
  apply register_steps_held.
  - intros f Hf. by apply Hattrs, Hsame.
  - intros d (f & ds & Hf & Hds & Hd). apply Hall.
    exists f, ds. split; [by apply Hsame | done].
Qed.

(** The example module: everything with [steps=None], and [when_foo]
    alone when selected by its name. *)
Lemma X11_register_steps_from_locals_witness :
  (∃ locals',
     register_steps_from_locals example_attrs example_locals None
     = Return locals'
     ∧ held (stored locals') given_foo
     ∧ held (stored locals') when_foo_liberal
     ∧ locals' !! "helper" = example_locals !! "helper")
  ∧ (∃ locals',
       register_steps_from_locals example_attrs example_locals
         (Some [ByName "when_foo"]) = Return locals'
       ∧ stored locals' = [when_foo_liberal]).
Proof.
  assert (Hreg : registrable example_locals) by (vm_compute; exact I).
  split.
  - destruct (X11_register_steps_from_locals example_attrs example_locals
                None Hreg) as (l' & Hl' & Hheld & _ & _ & Hother & _).
    exists l'. split; [exact Hl'|].
    split; [|split; [|by apply Hother]].
    + apply Hheld. right. exists given_foo. split; [|reflexivity].
      exists "given_foo", "given_foo", [given_foo].
      split; [vm_compute; reflexivity|].
      split; [vm_compute; reflexivity|].
      split; [reflexivity | by left].
    + apply Hheld. right. exists when_foo_liberal. split; [|reflexivity].
      exists "when_foo", "when_foo", [when_foo_liberal].
      split; [vm_compute; reflexivity|].
      split; [vm_compute; reflexivity|].
      split; [reflexivity | by left].
  - destruct (X11_register_steps_from_locals example_attrs example_locals
                (Some [ByName "when_foo"]) Hreg) as (l' & Hl' & _).
    exists l'. split; [exact Hl'|].
    assert (Hc : match register_steps_from_locals example_attrs
                         example_locals (Some [ByName "when_foo"]) with
                 | Return l => stored l = [when_foo_liberal]
                 | Raise _ => False
                 end) by (vm_compute; reflexivity).
    by rewrite Hl' in Hc.
Defined.

(** ** Wiring a Registry under an enclosing scope *)

Lemma scan_ext m m' defs :
  (∀ d, m d = m' d) → Matcher.scan m defs = Matcher.scan m' defs.
Proof.
  intros Hext. induction defs as [|d defs IH]; [done|].
  cbn [Matcher.scan]. by rewrite Hext, IH.
Qed.

Lemma scan_tiers_ext ms ms' defs :
  Forall2 (λ m m', ∀ d, m d = m' d) ms ms' →
  Matcher.scan_tiers ms defs = Matcher.scan_tiers ms' defs.
Proof.
  induction 1 as [|m m' ms ms' Hm _ IH]; [done|].
  cbn [Matcher.scan_tiers]. by rewrite (scan_ext m m' defs Hm), IH.
Qed.

Lemma find_in_ext ms ms' r :
  Forall2 (λ m m', ∀ d, m d = m' d) ms ms' →
  Matcher.find_in r ms = Matcher.find_in r ms'.
Proof.
  intros Hext. induction r as [defs|defs p IH] using Registry_ind;
    cbn [Matcher.find_in]; rewrite (scan_tiers_ext ms ms' defs Hext);
    [done|]. by rewrite IH.
Qed.

Lemma find_ext ms ms' reg :
  Forall2 (λ m m', ∀ d, m d = m' d) ms ms' →
  Matcher.find_step_definition_matches reg ms
  = Matcher.find_step_definition_matches reg ms'.
Proof. destruct reg as [r|]; [apply find_in_ext | done]. Qed.

(** X12.  The fixture of a Registry, run under an enclosing scope, keeps
    the Definitions of the Registry and makes the enclosing Registry its
    parent, in place of any earlier one; registering in the module
    afterwards keeps that parent.  A step for which no tier matches in
    the wired Registry is resolved exactly as from the enclosing scope
    (same result or error, same warnings), and a step for which some
    tier matches there is resolved the same under every enclosing
    scope. *)
Theorem X12_fixture_wiring
    (child : Registry) (outer : option Registry)
    (self0 : Matcher.t) (feature0 : Feature) (pickle0 : Scenario)
    (step0 : Step) (previous_step0 : option Step) :
  let wired := fixture_call child outer in
  let self := Matcher.enter self0 feature0 pickle0 step0 previous_step0
                (Some wired) in
  let resolve reg :=
    Matcher.call self0 feature0 pickle0 step0 previous_step0 reg in
  registry wired = registry child
  ∧ parent wired = outer
  ∧ (∀ outer', fixture_call wired outer' = fixture_call child outer')
  ∧ (∀ d locals locals',
       module_registry locals = Some wired →
       register_step_definition d locals = Return locals' →
       ∃ r, module_registry locals' = Some r ∧ parent r = outer)
  ∧ ((∀ m, m ∈ Matcher.tiers self → hits m (registry child) = []) →
     (resolve (Some wired)).2 = (resolve outer).2
     ∧ (resolve (Some wired)).1.2 = (resolve outer).1.2)
  ∧ (¬ (∀ m, m ∈ Matcher.tiers self → hits m (registry child) = []) →
     ∀ outer',
       (resolve (Some (fixture_call child outer'))).2 = (resolve (Some wired)).2
       ∧ (resolve (Some (fixture_call child outer'))).1.2
         = (resolve (Some wired)).1.2).
Proof.
  intros wired self resolve.
  pose proof (enter_tiers_total self0 feature0 pickle0 step0 previous_step0
                (Some wired)) as Htot.
  fold self in Htot.
  assert (Hfind : ∀ reg,
    (Matcher.find_step_definition_matches reg
       (Matcher.tiers (Matcher.enter self0 feature0 pickle0 step0
                         previous_step0 reg))).1
    = (Matcher.find_step_definition_matches reg (Matcher.tiers self)).1).
  { intros reg. f_equal. apply find_ext, enter_tiers_ext. }
  assert (Hresolve : ∀ reg reg',
    (Matcher.find_step_definition_matches reg (Matcher.tiers self)).1
    = (Matcher.find_step_definition_matches reg' (Matcher.tiers self)).1 →
    (resolve reg).2 = (resolve reg').2
    ∧ (resolve reg).1.2 = (resolve reg').1.2).
  { intros reg reg' Heq. unfold resolve. rewrite !call_outcome. cbv zeta.
    rewrite !Hfind, Heq.
    by destruct (Matcher.find_step_definition_matches reg'
                   (Matcher.tiers self)).1 as [|d [|d' ds]]. }
  split; [done|]. split; [done|]. split; [done|]. split.
  { intros d locals locals' Hmod Hregister.
    destruct (register_step_definition_module _ _ _ Hregister)
      as (r & Hr & _ & Hparent).
    exists r. split; [done|]. by rewrite Hparent, Hmod. }
  split.
  - intros Hnone. apply Hresolve. unfold wired, fixture_call.
    rewrite (find_fst_unfold _ _ _ Htot).
    by rewrite (proj2 (scan_tiers_nil_iff _ _ Htot) Hnone).
  - intros Hsome outer'. apply Hresolve. unfold wired, fixture_call.
    rewrite !(find_fst_unfold _ _ _ Htot).
    destruct (Matcher.scan_tiers (Matcher.tiers self) (registry child)).1
      as [|y ys] eqn:E; [|done].
    destruct Hsome. by apply (scan_tiers_nil_iff _ _ Htot).
Qed.

(** A module without a Definition for "bar", wired under the example
    parent, resolves "Given bar" as the parent does. *)
Lemma X12_fixture_wiring_witness :
  let child := mkRegistry [given_foo] None in
  (Matcher.call (Matcher.new example_config) example_feature example_scenario
     (mkStep CONTEXT "bar" "bar") None
     (Some (fixture_call child (Some example_parent)))).2
  = (Matcher.call (Matcher.new example_config) example_feature
       example_scenario (mkStep CONTEXT "bar" "bar") None
       (Some example_parent)).2.
Proof.
  intros child.
  refine (proj1 (proj1 (proj2 (proj2 (proj2 (proj2
            (X12_fixture_wiring child (Some example_parent)
               (Matcher.new example_config) example_feature example_scenario
               (mkStep CONTEXT "bar" "bar") None))))) _)).
  intros m Hm. unfold Matcher.tiers in Hm. rewrite !elem_of_cons in Hm.
  destruct Hm as [->|[->|[->|Hm]]];
    [vm_compute; reflexivity | vm_compute; reflexivity
     | vm_compute; reflexivity |].
  by apply elem_of_nil in Hm.
Defined.

(** ** The target fixtures again *)

Lemma filter_other_id (x : string) (items : list string) :
  x ∉ items → filter (λ y, y ≠ x) items = items.
Proof.
  induction items as [|y items IH]; [done|].
  intros [Hne Hx]%not_elem_of_cons.
  rewrite filter_cons_True by (intros Heq; by apply Hne).
  f_equal. by apply IH.
Qed.

Lemma keep_first_NoDup_id items :
  NoDup items → keep_first_occurrences items = items.
Proof.
  induction 1 as [|x items Hx _ IH]; [done|]. cbn. rewrite IH. f_equal.
  by apply filter_other_id.
Qed.

(** X13.  The target fixtures a decorator builds its Definition with are
    the single name followed by the list, unchanged, exactly when no
    name occurs twice among them; a single name alone gives the list of
    that name, and no name at all the empty list.  Passing the fixtures
    obtained as the list of a new decoration gives them back. *)
Theorem X13_target_fixtures_unchanged {Parserlike : Type} (o : @Options Parserlike) :
  let single := match opt_target_fixture o with Some x => [x] | None => [] end in
  let many := match opt_target_fixtures o with Some l => l | None => [] end in
  (effective_target_fixtures o = single ++ many ↔ NoDup (single ++ many))
  ∧ (opt_target_fixtures o = None → effective_target_fixtures o = single)
  ∧ (length (effective_target_fixtures o) ≤ length (single ++ many))
  ∧ effective_target_fixtures
      (mkOptions (opt_parserlike o) (opt_converters o) None
         (Some (effective_target_fixtures o))
         (opt_params_fixtures_mapping o) (opt_param_defaults o)
         (opt_liberal o))
    = effective_target_fixtures o.
Proof.
  intros single many.
  assert (Heff : effective_target_fixtures o
                 = keep_first_occurrences (single ++ many))
    by apply OrderedSet_keep_first.
  split; [|split; [|split]].
  - rewrite Heff. split.
    + intros <-. apply keep_first_NoDup.
    + apply keep_first_NoDup_id.
  - intros Hnone. rewrite Heff. unfold many. rewrite Hnone, app_nil_r.
    unfold single. by destruct (opt_target_fixture o).
  - rewrite Heff. apply sublist_length, keep_first_sublist.
  - unfold effective_target_fixtures at 1. cbn.
    rewrite OrderedSet_keep_first. apply keep_first_NoDup_id.
    rewrite Heff. apply keep_first_NoDup.
Qed.

(** [target_fixture="X"] with [target_fixtures=["Y"]] is kept as it is. *)
Lemma X13_target_fixtures_unchanged_witness :
  effective_target_fixtures
    (mkOptions "foo" None (Some "X") (Some ["Y"]) (PFM_bool true) None None)
  = ["X"; "Y"].
Proof.
  apply (proj1 (X13_target_fixtures_unchanged
                  (mkOptions "foo" None (Some "X") (Some ["Y"])
                     (PFM_bool true) None None))).
  cbn. apply NoDup_cons.
  split; [rewrite list_elem_of_singleton; discriminate | apply NoDup_singleton].
Defined.
